(** * Pair trading with Johansen cointegration: the notebook's pipeline

    A shallow embedding of [03_pair_trading_johansen.ipynb]: the synthetic
    series, the spread and its z-score, the entry/exit position loop and the
    P&L columns, with the properties the specification states about them.

    The notebook computes on float64 columns of one pandas DataFrame.  The
    column operations are written once, over an interface [Number] of the
    scalar operations they use, and the interface has two instances:
    - [float] (binary64, Rocq's primitive floats), on which every definition
      runs;
    - [xreal], the real numbers with one extra value for not-a-number, on which
      the statements "in exact arithmetic" are proved. *)

From Stdlib Require Import ZArith Reals Lra Lia List Floats.
From stdpp Require Import base option list sorting.
Import ListNotations.

(** ** Scalars *)

(** The scalar operations of a float64 column.  [lt] is the comparison [<] of
    the source; [nan] is the missing value pandas stores in a float column. *)
Class Number (T : Type) := {
  of_Z : Z -> T;
  nan : T;
  isnan : T -> bool;
  add : T -> T -> T;
  sub : T -> T -> T;
  mul : T -> T -> T;
  div : T -> T -> T;
  neg : T -> T;
  fabs : T -> T;
  sqrt : T -> T;
  lt : T -> T -> bool
}.

(** [x > y] is [y < x], for floats (false on NaN either way) as for reals. *)
Definition gt {T} `{Number T} (x y : T) : bool := lt y x.

(** A decimal literal [n/d] of the source, such as [0.8] = [lit 8 10]. *)
Definition lit {T} `{Number T} (n d : Z) : T := div (of_Z n) (of_Z d).

(** *** binary64 *)

(** An integer as a float; exact for [|z| < 2^53], and only meant for
    [|z| < 2^63], the range [Uint63.of_Z] does not wrap.  The pipeline applies
    it to row counts, to the positions -1, 0, 1 and to small literals. *)
Definition float_of_Z (z : Z) : float :=
  if (z <? 0)%Z then PrimFloat.opp (PrimFloat.of_uint63 (Uint63.of_Z (- z)))
  else PrimFloat.of_uint63 (Uint63.of_Z z).

#[export] Instance float_Number : Number float := {|
  of_Z := float_of_Z;
  nan := PrimFloat.nan;
  isnan := PrimFloat.is_nan;
  add := PrimFloat.add;
  sub := PrimFloat.sub;
  mul := PrimFloat.mul;
  div := PrimFloat.div;
  neg := PrimFloat.opp;
  fabs := PrimFloat.abs;
  sqrt := PrimFloat.sqrt;
  lt := PrimFloat.ltb
|}.

(** *** Exact arithmetic

    [Some x] is the real number [x]; [None] is not-a-number, the result of an
    operation that has no value: a division by zero, the square root of a
    negative number, any operation on not-a-number.  Infinities, signed zeros
    and rounding are not represented: on real inputs the pipeline divides by
    zero only when it divides zero by zero. *)
Definition xreal : Type := option R.

Definition xlift2 (f : R -> R -> R) (a b : xreal) : xreal :=
  match a, b with
  | Some x, Some y => Some (f x y)
  | _, _ => None
  end.

Definition xdiv (a b : xreal) : xreal :=
  match a, b with
  | Some x, Some y => if Req_dec_T y 0 then None else Some (x / y)%R
  | _, _ => None
  end.

Definition xsqrt (a : xreal) : xreal :=
  match a with
  | Some x => if Rlt_dec x 0 then None else Some (R_sqrt.sqrt x)
  | None => None
  end.

Definition xlt (a b : xreal) : bool :=
  match a, b with
  | Some x, Some y => if Rlt_dec x y then true else false
  | _, _ => false
  end.

#[export] Instance xreal_Number : Number xreal := {|
  of_Z := fun z => Some (IZR z);
  nan := None;
  isnan := fun a => match a with Some _ => false | None => true end;
  add := xlift2 Rplus;
  sub := xlift2 Rminus;
  mul := xlift2 Rmult;
  div := xdiv;
  neg := fun a => Ropp <$> a;
  fabs := fun a => Rabs <$> a;
  sqrt := xsqrt;
  lt := xlt
|}.

(** What the statements below use about not-a-number: it is recognised by
    [isnan], it is not the number 0, and NaN times NaN is NaN. *)
Class NanLaws (T : Type) `{Number T} : Prop := {
  isnan_nan : isnan (nan : T) = true;
  isnan_zero : isnan (of_Z 0 : T) = false;
  mul_nan_nan : mul nan nan = (nan : T)
}.

(** ** pandas and numpy column operations

    A column (a Series, a numpy array) is the list of its values in index
    order; all columns of the DataFrame share one index, so an operation on two
    columns acts position by position. *)

Section Columns.
Context {T : Type} `{Number T}.

(** [values] with every NaN replaced by 0: the masking pandas applies before a
    reduction that skips missing values; also [.fillna(0)]. *)
Definition fillna0 (col : list T) : list T :=
  map (fun x => if isnan x then of_Z 0 else x) col.

(** Number of values that are not NaN. *)
Definition count (col : list T) : nat :=
  length (List.filter (fun x => negb (isnan x)) col).

(** The sum of a column, added up left to right from 0.  numpy adds long
    arrays in another order (pairwise), which gives the same sum in exact
    arithmetic and can differ in the last bits on binary64. *)
Definition total (col : list T) : T := foldl add (of_Z 0) col.

(** [.mean()]: the sum of the present values over their number. *)
Definition mean (col : list T) : T :=
  div (total (fillna0 col)) (of_Z (Z.of_nat (count col))).

(** [.std()], with pandas' default [ddof=1]: NaN unless more than one value is
    present, else the square root of the squared deviations from the mean,
    summed and divided by [count - 1]. *)
Definition std (col : list T) : T :=
  let c := count col in
  if (c <=? 1)%nat then nan
  else
    let avg := mean col in
    let sqr := map (fun x => if isnan x then of_Z 0
                             else let d := sub avg x in mul d d) col in
    sqrt (div (total sqr) (of_Z (Z.of_nat (c - 1)))).

(** [.shift(1)]: every value moves one place down, the first place is NaN. *)
Definition shift1 (col : list T) : list T := take (length col) (nan :: col).

(** [.diff()]: NaN, then each value minus the one before it. *)
Definition diff (col : list T) : list T :=
  match col with
  | [] => []
  | _ :: rest => nan :: zip_with sub rest col
  end.

(** [np.cumsum]: the running sums, the first being the first value. *)
Fixpoint running (acc : T) (col : list T) : list T :=
  match col with
  | [] => []
  | x :: rest => let acc' := add acc x in acc' :: running acc' rest
  end.

Definition np_cumsum (col : list T) : list T :=
  match col with
  | [] => []
  | x :: rest => x :: running x rest
  end.

(** [.cumsum()] of a Series: NaN values count as 0 in the running sum and stay
    NaN in the result. *)
Definition cumsum (col : list T) : list T :=
  zip_with (fun x c => if isnan x then nan else c) col (np_cumsum (fillna0 col)).

End Columns.

(** ** Section 1 of the notebook: synthetic price series

    The random source is external: [gauss] draws one standard normal value
    from the generator state and [seed_state] is the state [np.random.seed]
    installs.  Both are parameters of the model. *)

Inductive result (A : Type) : Type :=
| Ok (a : A)
| ValueError.
Arguments Ok {A} a.
Arguments ValueError {A}.

Section Generator.
Context {T : Type} `{Number T}.
Context {rng : Type} (seed_state : Z -> rng) (gauss : rng -> T * rng).

(** [k] successive draws [loc + scale * gauss], with [loc = 0.0]. *)
Fixpoint draws (k : nat) (scale : T) (g : rng) : list T * rng :=
  match k with
  | O => ([], g)
  | S k' =>
      let (z, g1) := gauss g in
      let (zs, g2) := draws k' scale g1 in
      (add (of_Z 0) (mul scale z) :: zs, g2)
  end.

(** [np.random.normal(scale=scale, size=size)] for a scale that is not
    negative, as the cell's scales 1.0 and 2.0 are: numpy raises ValueError
    ("negative dimensions are not allowed") for a negative size and returns
    [size] draws otherwise, none when [size] is 0.  (A negative scale, which
    numpy rejects as well, and sizes too large to allocate are not
    modelled.) *)
Definition normal (scale : T) (size : Z) (g : rng) : result (list T * rng) :=
  if (size <? 0)%Z then ValueError else Ok (draws (Z.to_nat size) scale g).

(** The generating cell, with its constants as parameters: [n] (500),
    [offset] (100), [beta_true] (0.8) and the two noise scales (1.0, 2.0).
    The result is the pair [(S1, S2)] and the generator state left behind.
    The cell's first line, [t = np.arange(n)], is left out: [t] is never
    read, and [np.arange] returns an empty array for [n <= 0]. *)
Definition generate (n : Z) (offset beta_true scale1 scale2 : T) (g : rng)
    : result (list T * list T * rng) :=
  match normal scale1 n g with
  | ValueError => ValueError
  | Ok (eps1, g1) =>
      let S1 := map (add offset) (np_cumsum eps1) in
      match normal scale2 n g1 with
      | ValueError => ValueError
      | Ok (eps2, g2) =>
          let S2 := zip_with add (map (mul beta_true) S1) eps2 in
          Ok (S1, S2, g2)
      end
  end.

(** [np.random.seed(seed)]: numpy raises ValueError for a seed outside
    [0, 2^32 - 1]; otherwise the process-wide generator state is replaced,
    whatever it was. *)
Definition np_random_seed (seed : Z) (g0 : rng) : result rng :=
  if ((seed <? 0) || (2 ^ 32 - 1 <? seed))%Z then ValueError
  else Ok (seed_state seed).

(** One run from a process whose generator is in state [g0]: the seeding
    cell, then the generating cell. *)
Definition seeded_run (seed n : Z) (offset beta_true scale1 scale2 : T)
    (g0 : rng) : result (list T * list T) :=
  match np_random_seed seed g0 with
  | ValueError => ValueError
  | Ok g =>
      match generate n offset beta_true scale1 scale2 g with
      | ValueError => ValueError
      | Ok (S1, S2, _) => Ok (S1, S2)
      end
  end.

End Generator.

(** A small concrete random source, to run the generator on: a linear
    congruential state and a draw in [-1/2, 1/2).  It stands in for numpy's
    generator only in examples. *)
Definition lcg_next (g : Z) : Z := ((1103515245 * g + 12345) mod 2147483648)%Z.

Definition lcg_gauss (g : Z) : float * Z :=
  let g' := lcg_next g in
  (PrimFloat.sub (PrimFloat.div (float_of_Z g') (float_of_Z 2147483648))
                 0.5%float,
   g').

(** ** Section 3 of the notebook: spread and z-score *)

Section Spread.
Context {T : Type} `{Number T}.

(** [evec[0] * df['S1'] + evec[1] * df['S2']]; indexing [evec] outside its
    length has no value (IndexError).  [S1] and [S2] are columns of one
    DataFrame and so have the same length; the definition is meant for such
    columns only (on unequal lists it stops at the shorter one, which is not
    what pandas does with two Series of different index). *)
Definition spread (evec S1 S2 : list T) : option (list T) :=
  e0 ← evec !! 0%nat;
  e1 ← evec !! 1%nat;
  Some (zip_with add (map (mul e0) S1) (map (mul e1) S2)).

(** [(df['spread'] - df['spread'].mean()) / df['spread'].std()]. *)
Definition zscore (spread : list T) : list T :=
  let m := mean spread in
  let s := std spread in
  map (fun x => div (sub x m) s) spread.

End Spread.

(** ** Section 4 of the notebook: trading signals *)

(** The loop's variables: the scalar [pos] and the column [df['position']]. *)
Record loop_state := { pos : Z; position : list Z }.

Section Loop.
Context {T : Type} `{Number T}.

(** [(df['zscore'] < -entry_z).astype(int)] and
    [(df['zscore'] > entry_z).astype(int)]. *)
Definition astype_int (b : bool) : Z := if b then 1%Z else 0%Z.

Definition long_spread (entry_z : T) (zscore : list T) : list Z :=
  map (fun z => astype_int (lt z (neg entry_z))) zscore.

Definition short_spread (entry_z : T) (zscore : list T) : list Z :=
  map (fun z => astype_int (gt z entry_z)) zscore.

(** Truth value of an integer in an [if]. *)
Definition truthy (x : Z) : bool := negb (x =? 0)%Z.

(** [c and e]: [e] is evaluated only when [c] holds. *)
Definition and_then (c : bool) (e : option bool) : option bool :=
  if c then e else Some false.

(** [abs(df['zscore'].iloc[i]) < exit_z]; [.iloc[i]] has no value ([None],
    an IndexError) outside the column. *)
Definition exit_test (zscore : list T) (exit_z : T) (i : nat) : option bool :=
  z ← zscore !! i; Some (lt (fabs z) exit_z).

(** One iteration of the [for] loop, at index [i]; the last line stores [pos]
    in row [i] of the column, a row that has to exist. *)
Definition loop_body (long_spread short_spread : list Z) (zscore : list T)
    (exit_z : T) (i : nat) (st : loop_state) : option loop_state :=
  pos' ←
    (if (pos st =? 0)%Z then
       l ← long_spread !! i;
       if truthy l then Some 1%Z
       else s ← short_spread !! i;
            if truthy s then Some (-1)%Z else Some (pos st)
     else
       b1 ← and_then (pos st =? 1)%Z (exit_test zscore exit_z i);
       if b1 : bool then Some 0%Z
       else b2 ← and_then (pos st =? -1)%Z (exit_test zscore exit_z i);
            if b2 : bool then Some 0%Z else Some (pos st));
  _ ← position st !! i;
  Some {| pos := pos'; position := <[i := pos']> (position st) |}.

(** [for i in range(...)]: the body at each index in turn. *)
Fixpoint for_range (body : nat -> loop_state -> option loop_state)
    (range : list nat) (st : loop_state) : option loop_state :=
  match range with
  | [] => Some st
  | i :: range' => st' ← body i st; for_range body range' st'
  end.

(** The cell: the two indicator columns, [df['position'] = 0], [pos = 0],
    the loop over [range(len(df))]; the result is the column
    [df['position']]. *)
Definition position_column (entry_z exit_z : T) (zscore : list T)
    : option (list Z) :=
  let n := length zscore in
  st ← for_range
         (loop_body (long_spread entry_z zscore) (short_spread entry_z zscore)
                    zscore exit_z)
         (seq 0 n) {| pos := 0; position := replicate n 0%Z |};
  Some (position st).

End Loop.

(** The thresholds of the cell, [entry_z, exit_z = 1.0, 0.0], and the z-scores
    of the specification's example. *)
Definition entry_z_default {T} `{Number T} : T := of_Z 1.
Definition exit_z_default {T} `{Number T} : T := of_Z 0.

Definition sample_zscores {T} `{Number T} : list T :=
  [lit 15 10; lit 5 10; neg (lit 15 10); neg (lit 2 10); lit 1 10].

(** *** The state machine of the specification

    Written from the specification's words (section 4.4), to be compared with
    the loop above. *)

Inductive state := FLAT | LONG_SPREAD | SHORT_SPREAD.

Definition state_value (s : state) : Z :=
  match s with
  | FLAT => 0
  | LONG_SPREAD => 1
  | SHORT_SPREAD => -1
  end.

Section Machine.
Context {T : Type} `{Number T}.

Definition transition (entry_threshold exit_threshold : T)
    (s : state) (zscore : T) : state :=
  match s with
  | FLAT =>
      if lt zscore (neg entry_threshold) then LONG_SPREAD
      else if gt zscore entry_threshold then SHORT_SPREAD
      else FLAT
  | _ => if lt (fabs zscore) exit_threshold then FLAT else s
  end.

(** The left fold over a z-score sequence, from [FLAT]. *)
Definition run (entry_threshold exit_threshold : T) (zs : list T) : state :=
  foldl (transition entry_threshold exit_threshold) FLAT zs.

(** The state after each step of a run that starts in [s]. *)
Fixpoint scan (entry_threshold exit_threshold : T) (s : state)
    (zs : list T) : list state :=
  match zs with
  | [] => []
  | z :: zs' =>
      let s' := transition entry_threshold exit_threshold s z in
      s' :: scan entry_threshold exit_threshold s' zs'
  end.

End Machine.

(** ** Section 5 of the notebook: P&L *)

Section PnL.
Context {T : Type} `{Number T}.

(** [df['spread'].diff()]. *)
Definition spread_diff (spread : list T) : list T := diff spread.

(** [df['position'].shift(1) * df['spread_diff']]; shifting the integer
    column makes it a float column. *)
Definition pnl (position : list Z) (spread : list T) : list T :=
  zip_with mul (shift1 (map of_Z position)) (spread_diff spread).

(** [df['pnl'].cumsum().fillna(0)]. *)
Definition cum_pnl (position : list Z) (spread : list T) : list T :=
  fillna0 (cumsum (pnl position spread)).

End PnL.

(** ** The cells after the cointegration test, in order

    The columns the notebook adds to [df], given the price columns and the
    vector [evec] the Johansen test returned (the test itself is an external
    routine). *)
Record frame (T : Type) := {
  col_spread : list T;
  col_zscore : list T;
  col_position : list Z;
  col_pnl : list T;
  col_cum_pnl : list T
}.
Arguments col_spread {T} _.
Arguments col_zscore {T} _.
Arguments col_position {T} _.
Arguments col_pnl {T} _.
Arguments col_cum_pnl {T} _.

Definition analyse {T : Type} `{Number T} (evec S1 S2 : list T)
    (entry_z exit_z : T) : option (frame T) :=
  sp ← spread evec S1 S2;
  let z := zscore sp in
  ps ← position_column entry_z exit_z z;
  Some {| col_spread := sp;
          col_zscore := z;
          col_position := ps;
          col_pnl := pnl ps sp;
          col_cum_pnl := cum_pnl ps sp |}.

(** ** The summary line of the signal cell

    [df['position'].value_counts().sort_index()]: one row per distinct value
    of the column with the number of its occurrences; [value_counts] orders
    the rows by decreasing count and [sort_index] reorders them by increasing
    value.  The order [value_counts] gives to rows of equal count is not
    pandas' (first appearance); [sort_index] erases it. *)
Definition by_count (a b : Z * nat) : Prop := (b.2 <= a.2)%nat.
Definition by_index (a b : Z * nat) : Prop := (a.1 <= b.1)%Z.

#[export] Instance by_count_dec : RelDecision by_count :=
  fun a b => decide (b.2 <= a.2)%nat.
#[export] Instance by_index_dec : RelDecision by_index :=
  fun a b => decide (a.1 <= b.1)%Z.

Definition value_counts (col : list Z) : list (Z * nat) :=
  merge_sort by_count
             (map (fun v => (v, count_occ Z.eq_dec col v)) (remove_dups col)).

Definition sort_index (rows : list (Z * nat)) : list (Z * nat) :=
  merge_sort by_index rows.

Definition position_counts (position : list Z) : list (Z * nat) :=
  sort_index (value_counts position).

(** ** Comparisons with not-a-number

    Every comparison with NaN is false, and the absolute value of NaN is
    NaN. *)
Class NanOrder (T : Type) `{Number T} : Prop := {
  lt_nan_l : forall z y : T, isnan z = true -> lt z y = false;
  lt_nan_r : forall z y : T, isnan z = true -> lt y z = false;
  fabs_nan : forall z : T, isnan z = true -> isnan (fabs z) = true
}.

(** Dividing by NaN gives NaN. *)
Class NanDivision (T : Type) `{Number T} : Prop := {
  div_nan_r : forall x : T, isnan (div x nan) = true
}.

(** The position before step [t]: 0 before the first step. *)
Definition previous_position (ps : list Z) (t : nat) : option Z :=
  match t with
  | O => Some 0%Z
  | S t' => ps !! t'
  end.

(** The machine state with long and short exchanged. *)
Definition mirror (s : state) : state :=
  match s with
  | FLAT => FLAT
  | LONG_SPREAD => SHORT_SPREAD
  | SHORT_SPREAD => LONG_SPREAD
  end.

(** * Properties *)

(** ** The definitions at work, on binary64 *)

Example zscore_float : zscore (T := float) [of_Z 1; of_Z 2; of_Z 3]
                       = [of_Z (-1); of_Z 0; of_Z 1].
Proof. vm_compute. reflexivity. Qed.

Example pnl_float :
  pnl (T := float) [1; -1; 0]%Z [of_Z 10; of_Z 12; of_Z 9]
  = [nan; of_Z 2; of_Z 3].
Proof. vm_compute. reflexivity. Qed.

Example cum_pnl_float :
  cum_pnl (T := float) [1; -1; 0]%Z [of_Z 10; of_Z 12; of_Z 9]
  = [of_Z 0; of_Z 2; of_Z 5].
Proof. vm_compute. reflexivity. Qed.

(** Four steps of a spread [S1 - S2] that dips and recovers. *)
Example analyse_float :
  analyse (T := float) [of_Z 1; of_Z (-1)]
          [of_Z 10; of_Z 11; of_Z 12; of_Z 13]
          [of_Z 10; of_Z 13; of_Z 12; of_Z 13]
          entry_z_default exit_z_default
  = Some {| col_spread := [of_Z 0; of_Z (-2); of_Z 0; of_Z 0];
            col_zscore := [lit 1 2; neg (lit 3 2); lit 1 2; lit 1 2];
            col_position := [0; 1; 1; 1]%Z;
            col_pnl := [nan; neg (of_Z 0); of_Z 2; of_Z 0];
            col_cum_pnl := [of_Z 0; of_Z 0; of_Z 2; of_Z 2] |}.
Proof. vm_compute. reflexivity. Qed.

(** ** Lists *)

Lemma map_fmap {A B : Type} (f : A -> B) (l : list A) : map f l = f <$> l.
Proof. induction l as [|a l IH]; simpl; [reflexivity | by rewrite IH]. Qed.

Lemma lookup_map {A B : Type} (f : A -> B) (l : list A) (i : nat) :
  map f l !! i = f <$> l !! i.
Proof. rewrite map_fmap. apply list_lookup_fmap. Qed.

(** ** The position loop is the specification's scan *)

Section LoopFacts.
Context {T : Type} `{Number T}.
Variables entry_z exit_z : T.

Let tr := transition entry_z exit_z.

Lemma truthy_astype_int (b : bool) : truthy (astype_int b) = b.
Proof. by destruct b. Qed.

(** One iteration, from a [pos] that is the value of a machine state, is one
    transition of the machine. *)
Lemma loop_body_transition (zs : list T) (i : nat) (z : T) (s : state)
    (col : list Z) :
  zs !! i = Some z ->
  (i < length col)%nat ->
  loop_body (long_spread entry_z zs) (short_spread entry_z zs) zs exit_z i
            {| pos := state_value s; position := col |}
  = Some {| pos := state_value (tr s z);
            position := <[i := state_value (tr s z)]> col |}.
Proof.
  intros Hz Hi.
  destruct (lookup_lt_is_Some_2 col i Hi) as [c Hc].
  unfold loop_body, long_spread, short_spread, exit_test, tr, transition.
  cbn [pos position]. rewrite !lookup_map, Hz, Hc.
  destruct s; simpl; rewrite ?truthy_astype_int.
  - destruct (lt z (neg entry_z)); simpl; [reflexivity|].
    by destruct (gt z entry_z).
  - by destruct (lt (fabs z) exit_z).
  - by destruct (lt (fabs z) exit_z).
Qed.

(** The loop over the indices of [rest], entered after [done] was processed. *)
Lemma for_range_scan (rest done : list T) (pre : list Z) (s : state) :
  length pre = length done ->
  for_range
    (loop_body (long_spread entry_z (done ++ rest))
               (short_spread entry_z (done ++ rest)) (done ++ rest) exit_z)
    (seq (length done) (length rest))
    {| pos := state_value s; position := pre ++ replicate (length rest) 0%Z |}
  = Some {| pos := state_value (foldl tr s rest);
            position := pre ++ map state_value (scan entry_z exit_z s rest) |}.
Proof.
  revert done pre s.
  induction rest as [|z rest IH]; intros done pre s Hlen; simpl.
  - reflexivity.
  - rewrite (loop_body_transition _ _ z).
    + simpl.
      replace (<[length done := state_value (tr s z)]> (pre ++ 0%Z :: replicate (length rest) 0%Z))
        with ((pre ++ [state_value (tr s z)]) ++ replicate (length rest) 0%Z).
      * specialize (IH (done ++ [z]) (pre ++ [state_value (tr s z)]) (tr s z)).
        rewrite <- !app_assoc in IH. simpl in IH.
        rewrite !length_app in IH. simpl in IH.
        replace (length done + 1)%nat with (S (length done)) in IH by lia.
        rewrite <- (app_assoc pre). cbn [app].
        rewrite IH by lia. reflexivity.
      * rewrite <- Hlen, <- app_assoc. simpl.
        rewrite insert_app_r_alt by lia.
        by rewrite Nat.sub_diag.
    + rewrite lookup_app_r by lia. by rewrite Nat.sub_diag.
    + rewrite length_app. simpl. lia.
Qed.

(** The column the cell computes, in closed form; in particular the loop
    never fails. *)
Lemma position_column_scan (zs : list T) :
  position_column entry_z exit_z zs
  = Some (map state_value (scan entry_z exit_z FLAT zs)).
Proof.
  unfold position_column.
  pose proof (for_range_scan zs [] [] FLAT eq_refl) as Hloop.
  simpl in Hloop. by rewrite Hloop.
Qed.

Lemma length_scan (s : state) (zs : list T) :
  length (scan entry_z exit_z s zs) = length zs.
Proof. revert s; induction zs as [|z zs IH]; intros s; simpl; [done | by rewrite IH]. Qed.

(** Entry [t] of the scan is the fold over the first [t + 1] z-scores. *)
Lemma scan_lookup (zs : list T) (s : state) (t : nat) :
  (t < length zs)%nat ->
  scan entry_z exit_z s zs !! t = Some (foldl tr s (take (S t) zs)).
Proof.
  revert s t. induction zs as [|z zs IH]; intros s t Ht; simpl in *; [lia|].
  destruct t as [|t]; simpl.
  - by destruct zs.
  - rewrite IH by lia. reflexivity.
Qed.

(** Consecutive entries of the scan are related by one transition. *)
Lemma scan_step (zs : list T) (s : state) (t : nat) (a : state) (z : T) :
  scan entry_z exit_z s zs !! t = Some a ->
  zs !! S t = Some z ->
  scan entry_z exit_z s zs !! S t = Some (tr a z).
Proof.
  revert s t. induction zs as [|z0 zs IH]; intros s t Ha Hz; [done|].
  destruct t as [|t]; simpl in *.
  - destruct zs as [|z1 zs]; simpl in *; [done|].
    injection Ha as <-. injection Hz as <-. reflexivity.
  - eauto.
Qed.

End LoopFacts.

Section MachineFacts.
Context {T : Type} `{Number T}.
Variables entry_z exit_z : T.

Let tr := transition entry_z exit_z.

(** The machine leaves a non-flat state only for [FLAT]. *)
Lemma transition_held_or_flat (s : state) (z : T) :
  s <> FLAT -> tr s z = s \/ tr s z = FLAT.
Proof.
  intros Hs. destruct s; [done | |]; simpl;
    destruct (lt (fabs z) exit_z); auto.
Qed.

(** From a non-flat entry of the scan, every later entry repeats it unless
    some entry in between (or that later entry) is flat. *)
Lemma scan_held_or_flat (zs : list T) (s0 a : state) (i j : nat) :
  scan entry_z exit_z s0 zs !! i = Some a ->
  a <> FLAT ->
  (i <= j < length zs)%nat ->
  scan entry_z exit_z s0 zs !! j = Some a
  \/ exists k, (i < k <= j)%nat /\ scan entry_z exit_z s0 zs !! k = Some FLAT.
Proof.
  intros Ha Hflat. induction j as [|j IH]; intros [Hij Hj].
  - left. by replace i with 0%nat in Ha by lia.
  - destruct (decide (i = S j)) as [->|Hne]; [by left|].
    destruct IH as [Hheld | (k & Hk & Hflatk)]; [lia | |].
    + destruct (lookup_lt_is_Some_2 zs (S j) Hj) as [z Hz].
      pose proof (scan_step entry_z exit_z zs s0 j a z Hheld Hz) as Hnext.
      fold tr in Hnext.
      destruct (transition_held_or_flat a z Hflat) as [Heq | Heq];
        rewrite Heq in Hnext.
      * by left.
      * right. exists (S j). split; [lia | done].
    + right. exists k. split; [lia | done].
Qed.

(** When the exit test never succeeds, a non-flat state is kept. *)
Lemma transition_held (s : state) (z : T) :
  (forall z', lt (fabs z') exit_z = false) -> s <> FLAT -> tr s z = s.
Proof.
  intros Hexit Hs. destruct s; [done | |]; simpl; by rewrite Hexit.
Qed.

Lemma scan_never_flat (zs : list T) (s0 a : state) (i k : nat) :
  (forall z', lt (fabs z') exit_z = false) ->
  scan entry_z exit_z s0 zs !! i = Some a ->
  a <> FLAT ->
  (i <= k)%nat ->
  scan entry_z exit_z s0 zs !! k <> Some FLAT.
Proof.
  intros Hexit Ha Hflat. induction k as [|k IH]; intros Hik.
  - replace i with 0%nat in Ha by lia. congruence.
  - destruct (decide (i = S k)) as [->|Hne]; [congruence|].
    intros Hk.
    assert (Hlen : (S k < length zs)%nat).
    { apply lookup_lt_Some in Hk. by rewrite length_scan in Hk. }
    destruct (lookup_lt_is_Some_2 zs (S k) Hlen) as [z Hz].
    destruct (lookup_lt_is_Some_2 (scan entry_z exit_z s0 zs) k) as [b Hb].
    { rewrite length_scan. lia. }
    pose proof (scan_step entry_z exit_z zs s0 k b z Hb Hz) as Hnext.
    fold tr in Hnext.
    assert (Hbflat : b <> FLAT) by (intros ->; apply IH; [lia | done]).
    rewrite (transition_held b z Hexit Hbflat) in Hnext. congruence.
Qed.

(** With an exit test that never succeeds, a position once taken is held. *)
Lemma position_held (zs : list T) (ps : list Z) (i j : nat) (v : Z) :
  (forall z', lt (fabs z') exit_z = false) ->
  position_column entry_z exit_z zs = Some ps ->
  ps !! i = Some v ->
  v <> 0%Z ->
  (i <= j < length zs)%nat ->
  ps !! j = Some v.
Proof.
  intros Hexit Hps Hi Hv Hij.
  rewrite position_column_scan in Hps. injection Hps as <-.
  rewrite lookup_map in *.
  destruct (scan entry_z exit_z FLAT zs !! i) as [a|] eqn:Ha; [|done].
  injection Hi as <-.
  assert (Hflat : a <> FLAT) by (intros ->; done).
  destruct (scan_held_or_flat zs FLAT a i j Ha Hflat Hij)
    as [-> | (k & Hk & Hflatk)]; [done|].
  exfalso. eapply (scan_never_flat zs FLAT a i k); eauto. lia.
Qed.

End MachineFacts.

(** The test [abs(z) < 0.0] fails for every real number and for NaN. *)
Lemma xreal_abs_not_negative (z : xreal) : lt (fabs z) (of_Z 0) = false.
Proof.
  destruct z as [x|]; simpl; [|reflexivity].
  destruct (Rlt_dec (Rabs x) 0) as [Hneg|]; [|reflexivity].
  pose proof (Rabs_pos x). lra.
Qed.

(** It fails for every binary64 value as well. *)
Lemma float_abs_not_negative (z : float) : lt (fabs z) (of_Z 0) = false.
Proof.
  change (PrimFloat.ltb (PrimFloat.abs z) 0%float = false).
  rewrite ltb_spec, abs_spec.
  destruct (Prim2SF z) as [s|s| |s m e]; try destruct s; reflexivity.
Qed.

(** Deciding the comparisons of a closed term over [xreal]. *)
Ltac xreal_case :=
  match goal with
  | |- context [Rcase_abs ?a] => destruct (Rcase_abs a)
  | |- context [Req_dec_T ?a ?b] => destruct (Req_dec_T a b)
  | |- context [Rlt_dec ?a ?b] => destruct (Rlt_dec a b)
  end; try (exfalso; lra).

Ltac xreal_decide := repeat (cbn; unfold gt, Rabs; xreal_case); cbn.

Lemma sample_positions_xreal :
  position_column (T := xreal) entry_z_default exit_z_default sample_zscores
  = Some [-1; -1; -1; -1; -1]%Z.
Proof.
  rewrite position_column_scan. f_equal.
  unfold sample_zscores, entry_z_default, exit_z_default, lit.
  xreal_decide. reflexivity.
Qed.

Lemma sample_positions_float :
  position_column (T := float) entry_z_default exit_z_default sample_zscores
  = Some [-1; -1; -1; -1; -1]%Z.
Proof. vm_compute. reflexivity. Qed.

(** ** The claims about the Signal Generator *)

(** C2: for every z-score sequence and thresholds, the position column the
    loop computes is the left fold of the specification's transition rule
    from FLAT: entry [t] is the value of the state reached after the z-scores
    of steps [0..t]; in particular the loop always returns. *)
Theorem position_column_is_left_fold {T : Type} `{Number T}
    (entry_threshold exit_threshold : T) (zscore : list T) :
  position_column entry_threshold exit_threshold zscore
  = Some (map (fun t => state_value
                          (run entry_threshold exit_threshold (take (S t) zscore)))
              (seq 0 (length zscore))).
Proof.
  rewrite position_column_scan. f_equal.
  apply list_eq. intros t. rewrite !lookup_map.
  destruct (decide (t < length zscore)%nat) as [Ht | Ht].
  - rewrite scan_lookup by done.
    rewrite lookup_seq_lt by done. reflexivity.
  - rewrite (lookup_ge_None_2 (scan _ _ _ _)) by (rewrite length_scan; lia).
    rewrite (lookup_ge_None_2 (seq _ _)) by (rewrite length_seq; lia).
    reflexivity.
Qed.

(** C4: for every z-score sequence and thresholds, two steps [i < j] whose
    positions are +1 and -1 (in either order) are never consecutive, and some
    step strictly between them has position 0. *)
Theorem no_direct_flip {T : Type} `{Number T}
    (entry_threshold exit_threshold : T) (zscore : list T) (ps : list Z)
    (i j : nat) (a b : Z) :
  position_column entry_threshold exit_threshold zscore = Some ps ->
  (i < j)%nat ->
  ps !! i = Some a ->
  ps !! j = Some b ->
  (a = 1 /\ b = -1 \/ a = -1 /\ b = 1)%Z ->
  (S i < j)%nat /\ exists k, (i < k < j)%nat /\ ps !! k = Some 0%Z.
Proof.
  intros Hps Hij Hi Hj Hab.
  rewrite position_column_scan in Hps. injection Hps as <-.
  rewrite lookup_map in Hi, Hj.
  destruct (scan _ _ FLAT zscore !! i) as [sa|] eqn:Ha; [|done].
  destruct (scan _ _ FLAT zscore !! j) as [sb|] eqn:Hb; [|done].
  injection Hi as <-. injection Hj as <-.
  assert (Hflat : sa <> FLAT) by (intros ->; simpl in Hab; lia).
  assert (Hne : sb <> sa) by (intros ->; destruct sa; simpl in Hab; lia).
  assert (Hnf : sb <> FLAT) by (intros ->; simpl in Hab; lia).
  assert (Hlen : (j < length zscore)%nat).
  { apply lookup_lt_Some in Hb. by rewrite length_scan in Hb. }
  destruct (scan_held_or_flat entry_threshold exit_threshold zscore FLAT sa i j
              Ha Hflat) as [Hheld | (k & Hk & Hflatk)]; [lia | congruence |].
  assert (Hkj : k <> j) by (intros ->; congruence).
  split; [lia|].
  exists k. split; [lia|]. by rewrite lookup_map, Hflatk.
Qed.

Lemma no_direct_flip_witness :
  (S 0 < 2)%nat
  /\ exists k, (0 < k < 2)%nat
       /\ [-1; 0; 1]%Z !! k = Some 0%Z.
Proof.
  apply (no_direct_flip (T := float) (of_Z 1) (lit 5 10)
           [of_Z 2; of_Z 0; of_Z (-2)] [-1; 0; 1]%Z 0 2 (-1) 1).
  - vm_compute. reflexivity.
  - lia.
  - reflexivity.
  - reflexivity.
  - right. split; reflexivity.
Defined.

(** C3: with the default exit threshold 0.0, for every z-score sequence over
    the reals (not-a-number included) and every entry threshold, the exit test
    is false at every step, and a position +1 or -1 taken at step [i] is the
    position at every later step [j]. *)
Theorem default_exit_never_fires (entry_z : xreal) (zscore : list xreal)
    (ps : list Z) (i j : nat) (v : Z) :
  position_column entry_z exit_z_default zscore = Some ps ->
  ps !! i = Some v ->
  v <> 0%Z ->
  (i <= j < length zscore)%nat ->
  ps !! j = Some v /\ exit_test zscore exit_z_default j = Some false.
Proof.
  intros Hps Hi Hv Hij. split.
  - exact (position_held (T := xreal) entry_z exit_z_default zscore ps i j v
             xreal_abs_not_negative Hps Hi Hv Hij).
  - unfold exit_test.
    destruct (lookup_lt_is_Some_2 zscore j) as [z Hz]; [lia|].
    rewrite Hz. simpl. f_equal. apply xreal_abs_not_negative.
Qed.

Lemma default_exit_never_fires_witness :
  [-1; -1; -1; -1; -1]%Z !! 4%nat = Some (-1)%Z
  /\ exit_test (T := xreal) sample_zscores exit_z_default 4 = Some false.
Proof.
  apply (default_exit_never_fires entry_z_default sample_zscores
           [-1; -1; -1; -1; -1]%Z 0 4 (-1)).
  - exact sample_positions_xreal.
  - reflexivity.
  - lia.
  - simpl. lia.
Defined.

(** The same on binary64 values, infinities and NaN included. *)
Lemma held_position_binary64 (entry_z : float) (zscore : list float)
    (ps : list Z) (i j : nat) (v : Z) :
  position_column entry_z exit_z_default zscore = Some ps ->
  ps !! i = Some v ->
  v <> 0%Z ->
  (i <= j < length zscore)%nat ->
  ps !! j = Some v.
Proof.
  intros Hps Hi Hv Hij.
  exact (position_held (T := float) entry_z exit_z_default zscore ps i j v
           float_abs_not_negative Hps Hi Hv Hij).
Qed.

(** C5: on the z-scores [1.5, 0.5, -1.5, -0.2, 0.1] with entry threshold 1.0
    and exit threshold 0.0 the position column is [-1, -1, -1, -1, -1], in
    binary64 and in exact arithmetic. *)
Theorem spec_example_positions :
  position_column (T := float) entry_z_default exit_z_default sample_zscores
  = Some [-1; -1; -1; -1; -1]%Z
  /\ position_column (T := xreal) entry_z_default exit_z_default sample_zscores
     = Some [-1; -1; -1; -1; -1]%Z.
Proof. split; [exact sample_positions_float | exact sample_positions_xreal]. Qed.

(** ** Not-a-number in the two instances *)

#[export] Instance float_NanLaws : NanLaws float.
Proof. split; vm_compute; reflexivity. Qed.

#[export] Instance xreal_NanLaws : NanLaws xreal.
Proof. split; reflexivity. Qed.

Lemma nan_not_zero {T : Type} `{NanLaws T} : (nan : T) <> of_Z 0.
Proof.
  intros Heq. pose proof (isnan_nan (T := T)) as Hnan.
  rewrite Heq, isnan_zero in Hnan. discriminate.
Qed.

(** ** Shifted and differenced columns *)

Section ColumnFacts.
Context {T : Type} `{Number T}.

Lemma length_shift1 (col : list T) : length (shift1 col) = length col.
Proof. unfold shift1. rewrite length_take. simpl. lia. Qed.

Lemma shift1_lookup_0 (col : list T) :
  col <> [] -> shift1 col !! 0%nat = Some nan.
Proof. by destruct col. Qed.

Lemma shift1_lookup_S (col : list T) (t : nat) :
  (S t < length col)%nat -> shift1 col !! S t = col !! t.
Proof. intros Ht. unfold shift1. by rewrite lookup_take_lt. Qed.

Lemma length_diff (col : list T) : length (diff col) = length col.
Proof.
  destruct col as [|x rest]; simpl; [done|].
  rewrite length_zip_with. simpl. lia.
Qed.

Lemma diff_lookup_0 (col : list T) : col <> [] -> diff col !! 0%nat = Some nan.
Proof. by destruct col. Qed.

Lemma diff_lookup_S (col : list T) (t : nat) (a b : T) :
  col !! t = Some a -> col !! S t = Some b ->
  diff col !! S t = Some (sub b a).
Proof.
  intros Ha Hb. destruct col as [|x rest]; [done|].
  simpl in Hb |- *. rewrite lookup_zip_with, Hb. simpl. by rewrite Ha.
Qed.

Lemma length_pnl (position : list Z) (spread : list T) :
  length position = length spread ->
  length (pnl position spread) = length spread.
Proof.
  intros Hlen. unfold pnl, spread_diff.
  rewrite length_zip_with, length_shift1, length_diff, length_map. lia.
Qed.

End ColumnFacts.

(** ** The first P&L entry *)

(** C1 as stated fails on its last clause: the first P&L entry of the code is
    not-a-number, not 0. *)
Lemma pnl_first_entry_not_zero :
  pnl (T := float) [1; -1; 0]%Z [of_Z 10; of_Z 12; of_Z 9] !! 0%nat
  <> Some (of_Z 0).
Proof.
  intros Heq.
  apply (f_equal (fun o => match o with
                           | Some x => isnan x
                           | None => false
                           end)) in Heq.
  vm_compute in Heq. discriminate.
Qed.

(** ** Columns of real numbers in exact arithmetic *)

Lemma running_lookup {T : Type} `{Number T} (col : list T) (acc : T) (t : nat) :
  (t < length col)%nat ->
  running acc col !! t = Some (foldl add acc (take (S t) col)).
Proof.
  revert acc t. induction col as [|x col IH]; intros acc t Ht; simpl in *; [lia|].
  destruct t as [|t]; simpl.
  - by destruct col.
  - by rewrite IH by lia.
Qed.

Lemma length_running {T : Type} `{Number T} (col : list T) (acc : T) :
  length (running acc col) = length col.
Proof. revert acc. induction col as [|x col IH]; intros acc; simpl; [done | by rewrite IH]. Qed.

Section ExactColumns.
Implicit Types (l ds : list R) (a : R).

Lemma zip_with_xlift2 (f : R -> R -> R) l1 l2 :
  zip_with (xlift2 f) (map Some l1) (map Some l2) = map Some (zip_with f l1 l2).
Proof.
  revert l2. induction l1 as [|x l1 IH]; intros [|y l2]; simpl; try done.
  by rewrite IH.
Qed.

Lemma fillna0_some l : fillna0 (T := xreal) (map Some l) = map Some l.
Proof. unfold fillna0. induction l as [|x l IH]; simpl; [done | by f_equal]. Qed.

Lemma count_some l : count (T := xreal) (map Some l) = length l.
Proof. unfold count. induction l as [|x l IH]; simpl in *; [done | by rewrite IH]. Qed.

Lemma foldl_add_some a l :
  foldl (add (T := xreal)) (Some a) (map Some l) = Some (foldl Rplus a l).
Proof. revert a. induction l as [|x l IH]; intros a; simpl; [done | by rewrite IH]. Qed.

Lemma total_some l : total (T := xreal) (map Some l) = Some (foldl Rplus 0%R l).
Proof. apply foldl_add_some. Qed.

(** The P&L column of a real-valued spread: NaN, then real numbers. *)
Lemma pnl_exact_shape (position : list Z) (x0 : R) (xs : list R) :
  length position = S (length xs) ->
  pnl (T := xreal) position (map Some (x0 :: xs))
  = None :: map Some (zip_with Rmult (map IZR position)
                                 (zip_with Rminus xs (x0 :: xs))).
Proof.
  intros Hlen. destruct position as [|p ps]; [done|].
  simpl in Hlen. injection Hlen as Hlen.
  set (ds := zip_with Rmult (map IZR (p :: ps)) (zip_with Rminus xs (x0 :: xs))).
  unfold pnl, spread_diff, shift1, diff.
  cbn [map length take zip_with]. rewrite length_map, Hlen.
  change (zip_with sub (map Some xs) (Some x0 :: map Some xs))
    with (zip_with (xlift2 Rminus) (map Some xs) (map Some (x0 :: xs))).
  rewrite zip_with_xlift2.
  change (of_Z p :: map of_Z ps) with (map (of_Z (T := xreal)) (p :: ps)).
  replace (map (of_Z (T := xreal)) (p :: ps))
    with (map Some (map IZR (p :: ps))) by (by rewrite map_map).
  rewrite firstn_map.
  change (zip_with mul) with (zip_with (xlift2 Rmult)).
  rewrite zip_with_xlift2. do 2 f_equal.
  apply zip_with_take_l'. rewrite length_zip_with. cbn [length]. lia.
Qed.

Lemma fillna0_cons_nan (col : list xreal) :
  fillna0 (None :: col) = Some 0%R :: fillna0 col.
Proof. reflexivity. Qed.

Lemma total_cons_some a (col : list xreal) :
  total (Some a :: col) = foldl add (Some (0 + a)%R) col.
Proof. reflexivity. Qed.

Lemma cumsum_exact ds :
  cumsum (T := xreal) (None :: map Some ds)
  = None :: zip_with (fun x c => if isnan x then nan else c)
                     (map Some ds) (running (Some 0%R) (map Some ds)).
Proof. unfold cumsum. by rewrite fillna0_cons_nan, fillna0_some. Qed.

(** The cumulative column over such a P&L column, entry by entry. *)
Lemma cum_exact_lookup ds (t : nat) :
  (t <= length ds)%nat ->
  fillna0 (T := xreal) (cumsum (None :: map Some ds)) !! t
  = Some (total (fillna0 (take (S t) (None :: map Some ds)))).
Proof.
  intros Ht. rewrite cumsum_exact, fillna0_cons_nan.
  destruct t as [|t].
  - change (take 1 (None :: map Some ds)) with [None : xreal].
    rewrite fillna0_cons_nan, total_cons_some. simpl. do 2 f_equal. lra.
  - change (take (S (S t)) (None :: map Some ds))
      with (None :: take (S t) (map Some ds)).
    rewrite fillna0_cons_nan, firstn_map, fillna0_some, total_cons_some,
      foldl_add_some.
    change ((Some 0%R :: ?l) !! S t) with (l !! t).
    destruct (lookup_lt_is_Some_2 ds t) as [d Hd]; [lia|].
    unfold fillna0. rewrite lookup_map, lookup_zip_with, lookup_map, Hd.
    rewrite running_lookup by (rewrite length_map; lia).
    rewrite firstn_map, foldl_add_some. simpl.
    by rewrite Rplus_0_l.
Qed.

End ExactColumns.

(** On a real-valued spread, in exact arithmetic, every entry cum_pnl[t] is
    the sum of the P&L entries pnl[0..t] in which the not-a-number first
    entry counts as 0, and the last entry is that sum over the whole
    column. *)
Lemma cum_pnl_exact_running_sum (position : list Z) (spread : list R) :
  length position = length spread ->
  (1 <= length spread)%nat ->
  (forall t : nat, (t < length spread)%nat ->
     cum_pnl (T := xreal) position (map Some spread) !! t
     = Some (total (T := xreal) (fillna0 (take (S t) (pnl (T := xreal) position (map Some spread))))))
  /\ cum_pnl (T := xreal) position (map Some spread) !! (length spread - 1)%nat
     = Some (total (T := xreal) (fillna0 (pnl (T := xreal) position (map Some spread)))).
Proof.
  intros Hlen HN. destruct spread as [|x0 xs]; [simpl in HN; lia|].
  simpl in Hlen.
  pose proof (pnl_exact_shape position x0 xs Hlen) as Hshape.
  set (ds := zip_with Rmult (map IZR position)
                      (zip_with Rminus xs (x0 :: xs))) in Hshape.
  assert (Hds : length ds = length xs).
  { unfold ds. rewrite !length_zip_with, length_map. simpl. lia. }
  assert (Hall : forall t : nat, (t < length (x0 :: xs))%nat ->
     cum_pnl (T := xreal) position (map Some (x0 :: xs)) !! t
     = Some (total (T := xreal) (fillna0 (take (S t) (pnl (T := xreal) position (map Some (x0 :: xs))))))).
  { intros t Ht. simpl in Ht. unfold cum_pnl. rewrite Hshape.
    apply cum_exact_lookup. lia. }
  split; [exact Hall|].
  rewrite Hall by (simpl; lia).
  rewrite take_ge; [done|].
  rewrite Hshape. simpl. rewrite length_map. lia.
Qed.

(** The same sums written out: cum_pnl[t] adds position[k-1] * (spread[k] -
    spread[k-1]) for k = 1..t. *)
Lemma cum_pnl_closed_form (position : list Z) (spread : list R) (t : nat) :
  length position = length spread ->
  (t < length spread)%nat ->
  cum_pnl (T := xreal) position (map Some spread) !! t
  = Some (Some (foldl Rplus 0%R
                  (take t (zip_with Rmult (map IZR position)
                             (zip_with Rminus (tail spread) spread))))).
Proof.
  intros Hlen Ht. destruct spread as [|x0 xs]; [simpl in Ht; lia|].
  simpl in Hlen, Ht. unfold cum_pnl.
  rewrite (pnl_exact_shape position x0 xs Hlen). cbn [tail].
  set (ds := zip_with Rmult (map IZR position)
                      (zip_with Rminus xs (x0 :: xs))).
  assert (Hds : length ds = length xs).
  { unfold ds. rewrite !length_zip_with, length_map. simpl. lia. }
  rewrite cum_exact_lookup by lia.
  change (take (S t) (None :: map Some ds)) with (None :: take t (map Some ds)).
  rewrite fillna0_cons_nan, firstn_map, fillna0_some, total_cons_some,
    foldl_add_some.
  by rewrite Rplus_0_l.
Qed.

(** ** Mean and standard deviation in exact arithmetic *)

Section ExactStatistics.
Implicit Types (l xs : list R) (a m s : R).

Local Abbreviation Rsum := (foldl Rplus 0%R).

Lemma foldl_Rplus_from a l : foldl Rplus a l = (a + Rsum l)%R.
Proof.
  revert a. induction l as [|x l IH]; intros a; simpl; [lra|].
  rewrite (IH (a + x)%R), (IH (0 + x)%R). lra.
Qed.

Lemma Rsum_cons a l : Rsum (a :: l) = (a + Rsum l)%R.
Proof. simpl. rewrite foldl_Rplus_from. lra. Qed.

Lemma Rsum_scale (f : R -> R) (c : R) l :
  Rsum (map (fun x => c * f x)%R l) = (c * Rsum (map f l))%R.
Proof.
  induction l as [|x l IH]; [simpl; lra|].
  cbn [map]. rewrite !Rsum_cons, IH. lra.
Qed.

Lemma Rsum_centred m l :
  Rsum (map (fun x => x - m)%R l) = (Rsum l - INR (length l) * m)%R.
Proof.
  induction l as [|x l IH]; [simpl; lra|].
  cbn [map length]. rewrite !Rsum_cons, IH, S_INR. lra.
Qed.

Lemma Rsum_squares_nonneg (f : R -> R) l : (0 <= Rsum (map (fun x => f x * f x) l))%R.
Proof.
  induction l as [|x l IH]; [simpl; lra|].
  cbn [map]. rewrite Rsum_cons. pose proof (Rle_0_sqr (f x)). unfold Rsqr in *. lra.
Qed.

Lemma of_nat_exact (n : nat) : of_Z (T := xreal) (Z.of_nat n) = Some (INR n).
Proof. simpl. by rewrite <- INR_IZR_INZ. Qed.

Lemma xdiv_some a b : b <> 0%R -> xdiv (Some a) (Some b) = Some (a / b)%R.
Proof. intros Hb. unfold xdiv. by destruct (Req_dec_T b 0). Qed.

(** The mean of a non-empty real column. *)
Lemma mean_exact xs :
  xs <> [] ->
  mean (T := xreal) (map Some xs) = Some (Rsum xs / INR (length xs))%R.
Proof.
  intros Hne. unfold mean.
  rewrite fillna0_some, total_some, count_some, of_nat_exact.
  apply xdiv_some. apply not_0_INR. by destruct xs.
Qed.

Lemma squared_deviations_exact m xs :
  map (fun x : xreal => if isnan x then of_Z 0
                        else let d := sub (Some m) x in mul d d) (map Some xs)
  = map Some (map (fun x => (m - x) * (m - x))%R xs).
Proof. induction xs as [|x xs IH]; simpl; [done | by f_equal]. Qed.

(** The standard deviation of a real column with at least two entries. *)
Lemma std_exact xs :
  (2 <= length xs)%nat ->
  std (T := xreal) (map Some xs)
  = Some (R_sqrt.sqrt
            (Rsum (map (fun x => (Rsum xs / INR (length xs) - x)
                                 * (Rsum xs / INR (length xs) - x))%R xs)
             / INR (length xs - 1))).
Proof.
  intros Hlen. unfold std. rewrite count_some.
  destruct (Nat.leb_spec (length xs) 1) as [Hle | _]; [lia|].
  rewrite mean_exact by (intros ->; simpl in Hlen; lia).
  rewrite squared_deviations_exact, total_some, of_nat_exact.
  assert (Hpos : (0 < INR (length xs - 1))%R) by (apply lt_0_INR; lia).
  rewrite xdiv_some by lra.
  cbn [sqrt xreal_Number]. unfold xsqrt.
  destruct (Rlt_dec _ 0) as [Hneg|]; [|done].
  exfalso.
  pose proof (Rsum_squares_nonneg
                (fun x => Rsum xs / INR (length xs) - x)%R xs) as Hsq.
  apply (Rmult_lt_compat_r (INR (length xs - 1))) in Hneg; [|done].
  unfold Rdiv in Hneg. rewrite Rmult_assoc, Rinv_l in Hneg by lra. lra.
Qed.

(** The z-scores of a real column whose standard deviation [s] is not 0. *)
Lemma zscore_exact xs m s :
  mean (T := xreal) (map Some xs) = Some m ->
  std (T := xreal) (map Some xs) = Some s ->
  s <> 0%R ->
  zscore (T := xreal) (map Some xs) = map Some (map (fun x => (x - m) / s)%R xs).
Proof.
  intros Hm Hs Hs0. unfold zscore. rewrite Hm, Hs. clear Hm Hs.
  induction xs as [|x xs IH]; simpl; [done|].
  destruct (Req_dec_T s 0) as [|_]; [done|]. by f_equal.
Qed.

End ExactStatistics.

(** C6: for a real-valued spread column of length N >= 2 whose standard
    deviation (N-1 denominator) is not 0, in exact arithmetic the z-score
    column has mean exactly 0 and standard deviation exactly 1. *)
Theorem zscore_standardised (spread : list R) :
  (2 <= length spread)%nat ->
  std (T := xreal) (map Some spread) <> Some 0%R ->
  mean (T := xreal) (zscore (T := xreal) (map Some spread)) = Some 0%R
  /\ std (T := xreal) (zscore (T := xreal) (map Some spread)) = Some 1%R.
Proof.
  intros Hlen Hstd.
  pose proof (std_exact spread Hlen) as Hs.
  assert (Hne : spread <> []) by (intros ->; simpl in Hlen; lia).
  pose proof (mean_exact spread Hne) as Hm.
  set (m := (foldl Rplus 0 spread / INR (length spread))%R) in *.
  set (Q := foldl Rplus 0%R (map (fun x => (m - x) * (m - x))%R spread)) in *.
  set (s := R_sqrt.sqrt (Q / INR (length spread - 1))) in *.
  assert (Hs0 : s <> 0%R) by (intros Heq; apply Hstd; by rewrite Hs, Heq).
  assert (Hn : INR (length spread) <> 0%R) by (apply not_0_INR; lia).
  assert (Hn1 : (0 < INR (length spread - 1))%R) by (apply lt_0_INR; lia).
  assert (HQ : (0 <= Q)%R) by apply Rsum_squares_nonneg.
  assert (Hss : (s * s = Q / INR (length spread - 1))%R).
  { apply sqrt_sqrt. unfold Rdiv. apply Rmult_le_pos; [done|].
    left. by apply Rinv_0_lt_compat. }
  assert (HQ0 : Q <> 0%R).
  { intros Heq. rewrite Heq in Hss. unfold Rdiv in Hss.
    rewrite Rmult_0_l in Hss. apply Rmult_integral in Hss. tauto. }
  assert (Hsum : foldl Rplus 0%R (map (fun x => (x - m) / s)%R spread) = 0%R).
  { rewrite (map_ext _ (fun x => / s * (x - m))%R)
      by (intros x; unfold Rdiv; lra).
    rewrite (Rsum_scale (fun x => x - m)%R (/ s)), Rsum_centred.
    replace (foldl Rplus 0 spread - INR (length spread) * m)%R with 0%R
      by (unfold m; field; done).
    lra. }
  rewrite (zscore_exact spread m s Hm Hs Hs0).
  split.
  - rewrite mean_exact by (intros Hnil; apply Hne; by destruct spread).
    rewrite Hsum. f_equal. unfold Rdiv. lra.
  - rewrite std_exact by (by rewrite length_map).
    rewrite !length_map, Hsum, map_map. f_equal.
    rewrite (map_ext _ (fun x => / (s * s) * ((m - x) * (m - x)))%R)
      by (intros x; field; done).
    rewrite (Rsum_scale (fun x => (m - x) * (m - x))%R (/ (s * s))).
    fold Q. rewrite Hss.
    replace (/ (Q / INR (length spread - 1)) * Q / INR (length spread - 1))%R
      with 1%R by (field; split; lra).
    apply sqrt_1.
Qed.

Lemma sample_spread_std :
  std (T := xreal) (map Some [1; 3]%R) = Some (R_sqrt.sqrt 2).
Proof.
  rewrite std_exact by (simpl; lia).
  do 2 f_equal. simpl. lra.
Qed.

Lemma zscore_standardised_witness :
  mean (T := xreal) (zscore (T := xreal) (map Some [1; 3]%R)) = Some 0%R
  /\ std (T := xreal) (zscore (T := xreal) (map Some [1; 3]%R)) = Some 1%R.
Proof.
  apply (zscore_standardised [1; 3]%R).
  - simpl. lia.
  - rewrite sample_spread_std. intros Heq. injection Heq as Heq.
    pose proof (sqrt_lt_R0 2). lra.
Defined.

(** ** The degenerate spread *)

Section Degenerate.
Implicit Types (l prices : list R).

Local Abbreviation Rsum := (foldl Rplus 0%R).

Lemma Rsum_constant (c : R) l :
  Rsum (map (fun _ => c) l) = (INR (length l) * c)%R.
Proof.
  induction l as [|x l IH]; [simpl; lra|].
  cbn [map length]. rewrite Rsum_cons, IH, S_INR. lra.
Qed.

(** With the weights [1, -1] and twice the same prices the spread is 0 at
    every step. *)
Lemma spread_identical prices :
  spread (T := xreal) [of_Z 1; of_Z (-1)] (map Some prices) (map Some prices)
  = Some (map Some (map (fun _ => 0%R) prices)).
Proof.
  unfold spread. simpl. f_equal.
  induction prices as [|x prices IH]; simpl; [done|].
  rewrite IH. do 2 f_equal. lra.
Qed.

Lemma mean_zeros l :
  l <> [] -> mean (T := xreal) (map Some (map (fun _ => 0%R) l)) = Some 0%R.
Proof.
  intros Hne. rewrite mean_exact by (intros Hnil; apply Hne; by destruct l).
  rewrite Rsum_constant. f_equal. unfold Rdiv. lra.
Qed.

Lemma std_zeros l :
  (2 <= length l)%nat ->
  std (T := xreal) (map Some (map (fun _ => 0%R) l)) = Some 0%R.
Proof.
  intros Hlen. rewrite std_exact by (by rewrite length_map).
  rewrite map_map, Rsum_constant, Rsum_constant. f_equal.
  replace (_ / _)%R with 0%R by (unfold Rdiv; lra).
  apply sqrt_0.
Qed.

(** A single observation has no standard deviation at all. *)
Lemma std_single (x : R) : std (T := xreal) [Some x] = None.
Proof. reflexivity. Qed.

(** Dividing by a standard deviation that is 0 or NaN gives NaN everywhere. *)
Lemma zscore_undefined (col : list xreal) :
  std col = Some 0%R \/ std col = None ->
  zscore col = map (fun _ => None) col.
Proof.
  intros Hstd. unfold zscore.
  apply map_ext. intros x.
  change (xdiv (sub x (mean col)) (std col) = None).
  destruct Hstd as [-> | ->]; destruct (sub x (mean col)) as [y|];
    unfold xdiv; try done.
  destruct (Req_dec_T 0 0); done.
Qed.

End Degenerate.




(** The same on binary64 columns: the z-scores are NaN, and the position loop
    then stays flat. *)
Lemma zero_variance_float :
  let prices := [of_Z 100; lit 1015 10; lit 997 10] : list float in
  exists sp,
    spread [of_Z 1; of_Z (-1)] prices prices = Some sp
    /\ sp = [of_Z 0; of_Z 0; of_Z 0]
    /\ zscore sp = [nan; nan; nan]
    /\ position_column entry_z_default exit_z_default (zscore sp)
       = Some [0; 0; 0]%Z.
Proof.
  eexists. split; [vm_compute; reflexivity|].
  repeat split; vm_compute; reflexivity.
Qed.

(** ** The series generator *)

Section GeneratorFacts.
Context {T : Type} `{Number T}.
Context {rng : Type} (seed_state : Z -> rng) (gauss : rng -> T * rng).

Lemma length_draws (k : nat) (scale : T) (g : rng) :
  length (draws gauss k scale g).1 = k.
Proof.
  revert g. induction k as [|k IH]; intros g; simpl; [done|].
  destruct (gauss g) as [z g1]. specialize (IH g1).
  destruct (draws gauss k scale g1) as [zs g2]. simpl in *. by rewrite IH.
Qed.

Lemma length_np_cumsum (col : list T) : length (np_cumsum col) = length col.
Proof. destruct col as [|x col]; simpl; [done | by rewrite length_running]. Qed.

Lemma normal_result (scale : T) (size : Z) (g : rng) :
  match normal gauss scale size g with
  | ValueError => (size < 0)%Z
  | Ok (eps, _) => (0 <= size)%Z /\ length eps = Z.to_nat size
  end.
Proof.
  unfold normal. destruct (Z.ltb_spec size 0) as [Hneg | Hpos]; [done|].
  pose proof (length_draws (Z.to_nat size) scale g) as Hlen.
  destruct (draws gauss (Z.to_nat size) scale g) as [eps g']. by split.
Qed.

(** What the generating cell returns, by the sign of [n]. *)
Lemma generate_result (n : Z) (offset beta_true scale1 scale2 : T) (g : rng) :
  match generate gauss n offset beta_true scale1 scale2 g with
  | ValueError => (n < 0)%Z
  | Ok (S1, S2, _) =>
      (0 <= n)%Z /\ length S1 = Z.to_nat n /\ length S2 = Z.to_nat n
  end.
Proof.
  unfold generate.
  pose proof (normal_result scale1 n g) as H1.
  destruct (normal gauss scale1 n g) as [[eps1 g1]|]; [|done].
  destruct H1 as [Hn Hlen1].
  pose proof (normal_result scale2 n g1) as H2.
  destruct (normal gauss scale2 n g1) as [[eps2 g2]|]; [|lia].
  destruct H2 as [_ Hlen2].
  split; [done|].
  rewrite length_zip_with, !length_map, length_np_cumsum. lia.
Qed.

End GeneratorFacts.

(** C8, as the code has it: the generating cell has no check of its own; it
    fails exactly when [n < 0], with the ValueError its first sampling call
    raises before any series is built, and for [n >= 0] it returns two series
    of length [n] (empty ones for [n = 0]). *)
Theorem generate_fails_iff_negative {T : Type} `{Number T} {rng : Type}
    (gauss : rng -> T * rng) (n : Z) (offset beta_true scale1 scale2 : T)
    (g : rng) :
  match generate gauss n offset beta_true scale1 scale2 g with
  | ValueError => (n < 0)%Z /\ normal gauss scale1 n g = ValueError
  | Ok (S1, S2, _) =>
      (0 <= n)%Z /\ length S1 = Z.to_nat n /\ length S2 = Z.to_nat n
  end.
Proof.
  pose proof (generate_result gauss n offset beta_true scale1 scale2 g) as Hgen.
  destruct (generate gauss n offset beta_true scale1 scale2 g)
    as [[[S1 S2] g']|]; [exact Hgen|].
  split; [exact Hgen|].
  unfold normal. by destruct (Z.ltb_spec n 0) as [_|Hpos]; [|lia].
Qed.

(** C8 as stated fails at [n = 0]: the cell returns two empty series. *)
Lemma generate_zero_returns :
  generate (T := float) lcg_gauss 0 (of_Z 100) (lit 8 10) (of_Z 1) (of_Z 2)
           42%Z
  = Ok ([], [], 42%Z).
Proof. reflexivity. Qed.

(** What a seeded run returns: an error for a seed outside [0, 2^32 - 1] or
    a negative [n], two series of length [n] otherwise. *)
Lemma seeded_run_result {T : Type} `{Number T} {rng : Type}
    (seed_state : Z -> rng) (gauss : rng -> T * rng) (seed n : Z)
    (offset beta_true scale1 scale2 : T) (g0 : rng) :
  match seeded_run seed_state gauss seed n offset beta_true scale1 scale2 g0
  with
  | ValueError => (seed < 0 \/ 2 ^ 32 - 1 < seed \/ n < 0)%Z
  | Ok (S1, S2) =>
      (0 <= seed <= 2 ^ 32 - 1)%Z /\ (0 <= n)%Z
      /\ length S1 = Z.to_nat n /\ length S2 = Z.to_nat n
  end.
Proof.
  unfold seeded_run, np_random_seed.
  destruct (Z.ltb_spec seed 0) as [Hneg | Hpos]; simpl; [lia|].
  destruct (Z.ltb_spec (2 ^ 32 - 1) seed) as [Hbig | Hsmall]; simpl; [lia|].
  pose proof (generate_result gauss n offset beta_true scale1 scale2
                (seed_state seed)) as Hgen.
  destruct (generate gauss n offset beta_true scale1 scale2 (seed_state seed))
    as [[[S1 S2] g]|]; [|lia].
  repeat split; [done | done | apply Hgen..].
Qed.

(** Without the seeding cell the generating cell is not repeatable: it leaves
    the random source in another state, and a second call from there draws
    other values. *)
Lemma generate_advances_state :
  exists (S1 S2 S1' S2' : list float) (g g' : Z),
    generate lcg_gauss 2 (of_Z 100) (lit 8 10) (of_Z 1) (of_Z 2) 42%Z
    = Ok (S1, S2, g)
    /\ generate lcg_gauss 2 (of_Z 100) (lit 8 10) (of_Z 1) (of_Z 2) g
       = Ok (S1', S2', g')
    /\ g <> 42%Z
    /\ (x ← S1 !! 0%nat; y ← S1' !! 0%nat; Some (PrimFloat.eqb x y))
       = Some false.
Proof.
  do 6 eexists. split; [vm_compute; reflexivity|].
  split; [vm_compute; reflexivity|].
  split; [discriminate | vm_compute; reflexivity].
Qed.

(** * Further properties of the notebook's cells *)

(** ** The position loop, step by step *)

Section StepFacts.
Context {T : Type} `{Number T}.
Variables entry_z exit_z : T.

Let tr := transition entry_z exit_z.

Lemma state_value_inj (s s' : state) : state_value s = state_value s' -> s = s'.
Proof. by destruct s, s'. Qed.

Lemma state_value_range (s : state) :
  (state_value s = -1 \/ state_value s = 0 \/ state_value s = 1)%Z.
Proof. destruct s; simpl; auto. Qed.

Lemma scan_app (zs more : list T) (s : state) :
  scan entry_z exit_z s (zs ++ more)
  = scan entry_z exit_z s zs ++ scan entry_z exit_z (foldl tr s zs) more.
Proof.
  revert s. induction zs as [|z zs IH]; intros s; simpl; [done|].
  by rewrite IH.
Qed.

(** Row [t] of the column is one transition away from the row before it. *)
Lemma column_step (zs : list T) (ps : list Z) (t : nat) (z : T) :
  position_column entry_z exit_z zs = Some ps ->
  zs !! t = Some z ->
  exists s : state,
    previous_position ps t = Some (state_value s)
    /\ ps !! t = Some (state_value (tr s z)).
Proof.
  intros Hps Hz. rewrite position_column_scan in Hps. injection Hps as <-.
  destruct t as [|t]; simpl.
  - exists FLAT. split; [done|].
    destruct zs as [|z0 zs]; [done|]. simpl in *. by injection Hz as ->.
  - assert (Ht : (t < length zs)%nat).
    { apply lookup_lt_Some in Hz. lia. }
    destruct (lookup_lt_is_Some_2 (scan entry_z exit_z FLAT zs) t) as [s Hs].
    { by rewrite length_scan. }
    exists s. rewrite !lookup_map, Hs.
    by rewrite (scan_step entry_z exit_z zs FLAT t s z Hs Hz).
Qed.

End StepFacts.

(** X1: the loop fills every row of the position column, and every row is
    -1, 0 or +1. *)
Theorem position_column_range {T : Type} `{Number T} (entry_z exit_z : T)
    (zscore : list T) :
  exists ps : list Z,
    position_column entry_z exit_z zscore = Some ps
    /\ length ps = length zscore
    /\ Forall (fun p => p = -1 \/ p = 0 \/ p = 1)%Z ps.
Proof.
  exists (map state_value (scan entry_z exit_z FLAT zscore)).
  split; [apply position_column_scan|].
  split; [by rewrite length_map, length_scan|].
  induction (scan entry_z exit_z FLAT zscore) as [|s l IH]; simpl; constructor;
    [apply state_value_range | exact IH].
Qed.

(** X2: the loop does not look ahead: the column computed from a z-score
    column extended by further rows starts with the column computed from the
    z-score column alone. *)
Theorem position_column_prefix {T : Type} `{Number T} (entry_z exit_z : T)
    (zscore more : list T) :
  exists ps rest : list Z,
    position_column entry_z exit_z zscore = Some ps
    /\ position_column entry_z exit_z (zscore ++ more) = Some (ps ++ rest)
    /\ length rest = length more.
Proof.
  exists (map state_value (scan entry_z exit_z FLAT zscore)).
  exists (map state_value
            (scan entry_z exit_z
                  (foldl (transition entry_z exit_z) FLAT zscore) more)).
  rewrite !position_column_scan, scan_app, map_app.
  by rewrite length_map, length_scan.
Qed.

(** X3: the position changes only for a reason: it becomes +1 only from 0 at
    a step whose z-score is below [-entry_z]; it becomes -1 only from 0 at a
    step whose z-score is above [entry_z] and not below [-entry_z]; it becomes
    0 only at a step whose absolute z-score is below [exit_z]. *)
Theorem position_change_justified {T : Type} `{Number T} (entry_z exit_z : T)
    (zscore : list T) (ps : list Z) (t : nat) (z : T) (before p : Z) :
  position_column entry_z exit_z zscore = Some ps ->
  zscore !! t = Some z ->
  previous_position ps t = Some before ->
  ps !! t = Some p ->
  p <> before ->
  (p = 1 /\ before = 0 /\ lt z (neg entry_z) = true)%Z
  \/ (p = -1 /\ before = 0 /\ lt z (neg entry_z) = false
      /\ gt z entry_z = true)%Z
  \/ (p = 0 /\ before <> 0 /\ lt (fabs z) exit_z = true)%Z.
Proof.
  intros Hps Hz Hbefore Hp Hne.
  destruct (column_step entry_z exit_z zscore ps t z Hps Hz) as (s & Hs & Hnext).
  rewrite Hs in Hbefore. injection Hbefore as <-.
  rewrite Hnext in Hp. injection Hp as <-.
  destruct s; simpl in *.
  - destruct (lt z (neg entry_z)); [by left|].
    destruct (gt z entry_z); [right; by left | done].
  - destruct (lt (fabs z) exit_z); [|done]. right; right. by repeat split.
  - destruct (lt (fabs z) exit_z); [|done]. right; right. by repeat split.
Qed.

Lemma position_change_justified_witness :
  (1 = 1 /\ 0 = 0 /\ lt (of_Z (-2) : float) (neg (of_Z 1)) = true)%Z
  \/ (1 = -1 /\ 0 = 0 /\ lt (of_Z (-2) : float) (neg (of_Z 1)) = false
      /\ gt (of_Z (-2) : float) (of_Z 1) = true)%Z
  \/ (1 = 0 /\ 0 <> 0 /\ lt (fabs (of_Z (-2) : float)) (lit 5 10) = true)%Z.
Proof.
  apply (position_change_justified (T := float) (of_Z 1) (lit 5 10)
           [of_Z 0; of_Z (-2); of_Z 0] [0; 1; 0]%Z 1 (of_Z (-2)) 0 1).
  - vm_compute. reflexivity.
  - reflexivity.
  - reflexivity.
  - reflexivity.
  - discriminate.
Defined.

(** X6: the long test is tried first: from a flat position, a z-score that
    passes both entry tests (possible only with a negative [entry_z]) opens a
    long position. *)
Theorem long_entry_wins {T : Type} `{Number T} (entry_z exit_z : T)
    (zscore : list T) (ps : list Z) (t : nat) (z : T) :
  position_column entry_z exit_z zscore = Some ps ->
  zscore !! t = Some z ->
  previous_position ps t = Some 0%Z ->
  lt z (neg entry_z) = true ->
  gt z entry_z = true ->
  ps !! t = Some 1%Z.
Proof.
  intros Hps Hz Hbefore Hlong _.
  destruct (column_step entry_z exit_z zscore ps t z Hps Hz) as (s & Hs & Hnext).
  rewrite Hs in Hbefore. injection Hbefore as Hflat.
  apply (state_value_inj s FLAT) in Hflat. subst s.
  rewrite Hnext. simpl. by rewrite Hlong.
Qed.

Lemma long_entry_wins_witness : [1; 1]%Z !! 0%nat = Some 1%Z.
Proof.
  apply (long_entry_wins (T := float) (of_Z (-1)) (of_Z 0)
           [of_Z 0; of_Z 3] [1; 1]%Z 0 (of_Z 0)).
  - vm_compute. reflexivity.
  - reflexivity.
  - reflexivity.
  - vm_compute. reflexivity.
  - vm_compute. reflexivity.
Defined.

(** ** Not-a-number in the z-score column *)

#[export] Instance xreal_NanOrder : NanOrder xreal.
Proof.
  split.
  - intros [x|] y Hnan; [done|]. reflexivity.
  - intros [x|] [y|] Hnan; done.
  - intros [x|] Hnan; done.
Qed.

Lemma float_is_nan_spec (z : float) :
  PrimFloat.is_nan z = true -> Prim2SF z = S754_nan.
Proof.
  unfold PrimFloat.is_nan. rewrite FloatAxioms.eqb_spec.
  destruct (Prim2SF z) as [s|s| |s m e]; intros Hnan;
    [destruct s; discriminate | destruct s; discriminate | reflexivity |].
  unfold SFeqb, SFcompare in Hnan.
  destruct s; rewrite Z.compare_refl, Pos.compare_cont_refl in Hnan;
    discriminate.
Qed.

#[export] Instance float_NanOrder : NanOrder float.
Proof.
  split.
  - intros z y Hnan. apply float_is_nan_spec in Hnan.
    change (PrimFloat.ltb z y = false). by rewrite ltb_spec, Hnan.
  - intros z y Hnan. apply float_is_nan_spec in Hnan.
    change (PrimFloat.ltb y z = false). rewrite ltb_spec, Hnan.
    by destruct (Prim2SF y).
  - intros z Hnan. apply float_is_nan_spec in Hnan.
    change (PrimFloat.is_nan (PrimFloat.abs z) = true).
    unfold PrimFloat.is_nan. by rewrite FloatAxioms.eqb_spec, abs_spec, Hnan.
Qed.

(** X4: a step whose z-score is not-a-number leaves the position as it was
    (0 at the first step): no entry and no exit test passes on NaN. *)
Theorem nan_zscore_keeps_position {T : Type} `{NanOrder T} (entry_z exit_z : T)
    (zscore : list T) (ps : list Z) (t : nat) (z : T) :
  position_column entry_z exit_z zscore = Some ps ->
  zscore !! t = Some z ->
  isnan z = true ->
  ps !! t = previous_position ps t.
Proof.
  intros Hps Hz Hnan.
  destruct (column_step entry_z exit_z zscore ps t z Hps Hz) as (s & Hs & Hnext).
  rewrite Hs, Hnext. do 2 f_equal.
  destruct s; simpl; unfold gt.
  - by rewrite (lt_nan_l z), (lt_nan_r z).
  - by rewrite (lt_nan_l (fabs z)) by (by apply fabs_nan).
  - by rewrite (lt_nan_l (fabs z)) by (by apply fabs_nan).
Qed.

Lemma nan_zscore_keeps_position_witness :
  [-1; -1; -1]%Z !! 1%nat = previous_position [-1; -1; -1]%Z 1.
Proof.
  apply (nan_zscore_keeps_position (T := float) (of_Z 1) (lit 5 10)
           [of_Z 2; nan; of_Z 3] [-1; -1; -1]%Z 1 nan).
  - vm_compute. reflexivity.
  - reflexivity.
  - reflexivity.
Defined.

(** ** Exchanging long and short *)

Section Mirror.
Variables entry_z exit_z : xreal.
Hypothesis entry_not_negative : lt entry_z (of_Z 0) = false.

Lemma state_value_mirror (s : state) :
  state_value (mirror s) = (- state_value s)%Z.
Proof. by destruct s. Qed.

Lemma transition_mirror (s : state) (z : xreal) :
  transition entry_z exit_z (mirror s) (neg z)
  = mirror (transition entry_z exit_z s z).
Proof.
  assert (Hfabs : fabs (neg z) = fabs z).
  { destruct z as [v|]; simpl; [|done]. by rewrite Rabs_Ropp. }
  destruct s; cbn [mirror transition]; rewrite ?Hfabs;
    try (destruct (lt (fabs z) exit_z); reflexivity).
  unfold gt. destruct entry_z as [e|], z as [v|]; simpl in *; try done.
  destruct (Rlt_dec e 0) as [|He]; [done|].
  destruct (Rlt_dec (- v) (- e)), (Rlt_dec e (- v)), (Rlt_dec v (- e)),
    (Rlt_dec e v); simpl; try reflexivity; exfalso; lra.
Qed.

Lemma scan_mirror (zs : list xreal) (s : state) :
  scan entry_z exit_z (mirror s) (map neg zs)
  = map mirror (scan entry_z exit_z s zs).
Proof.
  revert s. induction zs as [|z zs IH]; intros s; cbn [scan map]; [done|].
  by rewrite transition_mirror, IH.
Qed.

End Mirror.

(** X5: in exact arithmetic, with an entry threshold that is not negative,
    the signal is symmetric: changing the sign of every z-score changes the
    sign of every position. *)
Theorem position_column_mirror (entry_z exit_z : xreal) (zscore : list xreal) :
  lt entry_z (of_Z 0) = false ->
  position_column entry_z exit_z (map neg zscore)
  = map Z.opp <$> position_column entry_z exit_z zscore.
Proof.
  intros Hentry. rewrite !position_column_scan. simpl. f_equal.
  change FLAT with (mirror FLAT) at 1.
  rewrite (scan_mirror entry_z exit_z Hentry), !map_map.
  apply map_ext. intros s. apply state_value_mirror.
Qed.

Lemma position_column_mirror_witness :
  position_column (T := xreal) entry_z_default exit_z_default
                  (map neg sample_zscores)
  = map Z.opp <$> position_column entry_z_default exit_z_default sample_zscores.
Proof.
  apply (position_column_mirror entry_z_default exit_z_default sample_zscores).
  simpl. destruct (Rlt_dec 1 0) as [Hlt|]; [exfalso; lra | reflexivity].
Defined.

(** ** The spread and its z-score at the edges *)

(** X7: the spread cell reads exactly the first two weights: on two price
    columns of one length it fails (an IndexError) when [evec] has fewer than
    two entries, ignores any further entries, and otherwise returns a column
    of that length. *)
Theorem spread_arity {T : Type} `{Number T} (evec S1 S2 : list T) :
  length S1 = length S2 ->
  spread evec S1 S2 = spread (take 2 evec) S1 S2
  /\ match spread evec S1 S2 with
     | None => (length evec < 2)%nat
     | Some sp => (2 <= length evec)%nat /\ length sp = length S1
     end.
Proof.
  intros Hlen.
  destruct evec as [|e0 [|e1 rest]]; simpl; (split; [reflexivity|]); try lia.
  split; [lia|]. rewrite length_zip_with, !length_map. lia.
Qed.

Lemma spread_arity_witness :
  spread (T := float) [of_Z 1; of_Z (-1); of_Z 7] [of_Z 3; of_Z 4]
         [of_Z 1; of_Z 6]
  = spread (take 2 [of_Z 1; of_Z (-1); of_Z 7]) [of_Z 3; of_Z 4]
           [of_Z 1; of_Z 6]
  /\ match spread (T := float) [of_Z 1; of_Z (-1); of_Z 7] [of_Z 3; of_Z 4]
                  [of_Z 1; of_Z 6] with
     | None => (length [of_Z 1; of_Z (-1); of_Z 7 : float] < 2)%nat
     | Some sp =>
         (2 <= length [of_Z 1; of_Z (-1); of_Z 7 : float])%nat
         /\ length sp = length [of_Z 3; of_Z 4 : float]
     end.
Proof.
  apply (spread_arity (T := float) [of_Z 1; of_Z (-1); of_Z 7] [of_Z 3; of_Z 4]
           [of_Z 1; of_Z 6]).
  reflexivity.
Defined.

#[export] Instance xreal_NanDivision : NanDivision xreal.
Proof. split. by intros [x|]. Qed.

#[export] Instance float_NanDivision : NanDivision float.
Proof.
  split. intros x.
  change (PrimFloat.is_nan (PrimFloat.div x PrimFloat.nan) = true).
  unfold PrimFloat.is_nan. rewrite FloatAxioms.eqb_spec, div_spec.
  change (Prim2SF PrimFloat.nan) with S754_nan.
  by destruct (Prim2SF x).
Qed.

(** X8: a column with fewer than two present values has no standard
    deviation, and every one of its z-scores is not-a-number. *)
Theorem zscore_needs_two_values {T : Type} `{NanDivision T} (col : list T) :
  (count col <= 1)%nat ->
  std col = nan
  /\ Forall (fun z => isnan z = true) (zscore col).
Proof.
  intros Hcount.
  assert (Hstd : std col = nan).
  { unfold std. by destruct (Nat.leb_spec (count col) 1) as [_|Hgt]; [|lia]. }
  split; [exact Hstd|].
  unfold zscore. rewrite Hstd. clear Hcount Hstd.
  generalize (mean col). intros m.
  induction col as [|x col IH]; simpl; constructor;
    [apply div_nan_r | exact IH].
Qed.

Lemma zscore_needs_two_values_witness :
  std [of_Z 7 : float] = nan
  /\ Forall (fun z => isnan z = true) (zscore [of_Z 7 : float]).
Proof.
  apply (zscore_needs_two_values (T := float) [of_Z 7]).
  vm_compute. lia.
Defined.

(** ** The z-score in exact arithmetic *)

Section ExactZScore.
Implicit Types (l xs : list R) (a b c m s : R).

Local Abbreviation Rsum := (foldl Rplus 0%R).

Lemma Rsum_affine a b l :
  Rsum (map (fun x => a * x + b)%R l) = (a * Rsum l + INR (length l) * b)%R.
Proof.
  induction l as [|x l IH]; [simpl; lra|].
  cbn [map length]. rewrite !Rsum_cons, IH, S_INR. lra.
Qed.

Lemma Rsum_squares_zero (f : R -> R) l :
  Rsum (map (fun x => f x * f x)%R l) = 0%R -> Forall (fun x => f x = 0%R) l.
Proof.
  induction l as [|x l IH]; cbn [map]; [constructor|].
  rewrite Rsum_cons. intros Hsum.
  pose proof (Rsum_squares_nonneg f l) as Hrest.
  pose proof (Rle_0_sqr (f x)) as Hx. unfold Rsqr in Hx.
  assert (Hfx : (f x * f x = 0)%R) by lra.
  constructor; [|apply IH; lra].
  by apply Rmult_integral in Hfx as [|].
Qed.

Lemma std_few (col : list xreal) : (count col <= 1)%nat -> std col = None.
Proof.
  intros Hcount. unfold std.
  by destruct (Nat.leb_spec (count col) 1) as [_|Hgt]; [|lia].
Qed.

(** The statistics of a column rescaled by [a > 0] and shifted by [b]. *)
Lemma mean_affine a b xs :
  xs <> [] ->
  (Rsum (map (fun x => a * x + b)%R xs)
   / INR (length (map (fun x => a * x + b)%R xs))
   = a * (Rsum xs / INR (length xs)) + b)%R.
Proof.
  intros Hne. rewrite Rsum_affine, length_map. field.
  apply not_0_INR. by destruct xs.
Qed.

Lemma std_affine a b xs :
  (0 < a)%R ->
  (2 <= length xs)%nat ->
  exists s, std (T := xreal) (map Some xs) = Some s
            /\ std (T := xreal) (map Some (map (fun x => a * x + b)%R xs))
               = Some (a * s)%R.
Proof.
  intros Ha Hlen.
  assert (Hne : xs <> []) by (intros ->; simpl in Hlen; lia).
  rewrite !std_exact by (by rewrite ?length_map).
  eexists. split; [reflexivity|]. f_equal.
  rewrite mean_affine by done. rewrite length_map, map_map.
  set (m := (Rsum xs / INR (length xs))%R).
  rewrite (map_ext _ (fun x => (a * a) * ((m - x) * (m - x)))%R)
    by (intros x; ring).
  rewrite (Rsum_scale (fun x => (m - x) * (m - x))%R (a * a)).
  set (Q := Rsum (map (fun x => (m - x) * (m - x))%R xs)).
  assert (HQ : (0 <= Q)%R) by apply Rsum_squares_nonneg.
  assert (Hn1 : (0 < INR (length xs - 1))%R) by (apply lt_0_INR; lia).
  replace (a * a * Q / INR (length xs - 1))%R
    with ((a * a) * (Q / INR (length xs - 1)))%R by (field; lra).
  rewrite sqrt_mult_alt by nra.
  by rewrite sqrt_square by lra.
Qed.

Lemma Forall_number l :
  Forall (fun z : xreal => isnan z = false) (map Some l).
Proof. induction l as [|x l IH]; simpl; constructor; [reflexivity | exact IH]. Qed.

Lemma Forall_nan {A : Type} (l : list A) :
  Forall (fun z : xreal => isnan z = true) (map (fun _ => None) l).
Proof. induction l as [|x l IH]; simpl; constructor; [reflexivity | exact IH]. Qed.

End ExactZScore.

Lemma zscore_affine (a b : R) (spread : list R) :
  (0 < a)%R ->
  zscore (T := xreal) (map Some (map (fun x => a * x + b)%R spread))
  = zscore (T := xreal) (map Some spread).
Proof.
  intros Ha.
  destruct (decide (length spread <= 1)%nat) as [Hfew | Hmany].
  - rewrite !zscore_undefined
      by (right; apply std_few; by rewrite count_some, ?length_map).
    by rewrite !map_map.
  - assert (Hlen : (2 <= length spread)%nat) by lia.
    assert (Hne : spread <> []) by (intros ->; simpl in Hlen; lia).
    destruct (std_affine a b spread Ha Hlen) as (s & Hs & Hs').
    destruct (Req_dec_T s 0) as [-> | Hs0].
    + rewrite Rmult_0_r in Hs'.
      rewrite !zscore_undefined by (by left).
      by rewrite !map_map.
    + pose proof (mean_exact spread Hne) as Hm.
      assert (Hm' : mean (T := xreal) (map Some (map (fun x => a * x + b)%R spread))
                    = Some (a * (foldl Rplus 0 spread / INR (length spread)) + b)%R).
      { rewrite mean_exact by (intros Hnil; apply Hne; by destruct spread).
        by rewrite mean_affine. }
      rewrite (zscore_exact _ _ _ Hm' Hs') by nra.
      rewrite (zscore_exact _ _ _ Hm Hs Hs0).
      f_equal. rewrite map_map. apply map_ext. intros x.
      field. repeat split; [apply not_0_INR; lia | assumption | lra].
Qed.

(** X9: in exact arithmetic the z-score does not depend on the scale or the
    offset of the spread: rescaling the spread by [a > 0] and shifting it by
    [b] leaves every z-score as it was. *)
Theorem zscore_affine_invariant (a b : R) (spread : list R) :
  (0 < a)%R ->
  zscore (T := xreal) (map Some (map (fun x => a * x + b)%R spread))
  = zscore (T := xreal) (map Some spread).
Proof. exact (zscore_affine a b spread). Qed.

Lemma zscore_affine_invariant_witness :
  zscore (T := xreal) (map Some (map (fun x => 2 * x + 5)%R [1; 3]%R))
  = zscore (T := xreal) (map Some [1; 3]%R).
Proof. apply (zscore_affine_invariant 2 5 [1; 3]%R). lra. Defined.

(** X10: in exact arithmetic, for a real-valued spread of length N >= 2, the
    standard deviation is 0 exactly when all values are equal, and the
    z-scores are not-a-number exactly then; otherwise none of them is. *)
Theorem std_zero_iff_constant (spread : list R) :
  (2 <= length spread)%nat ->
  (std (T := xreal) (map Some spread) = Some 0%R
   <-> exists c : R, Forall (fun x => x = c) spread)
  /\ (Forall (fun z => isnan z = true) (zscore (T := xreal) (map Some spread))
      <-> std (T := xreal) (map Some spread) = Some 0%R)
  /\ (std (T := xreal) (map Some spread) <> Some 0%R ->
      Forall (fun z => isnan z = false) (zscore (T := xreal) (map Some spread))).
Proof.
  intros Hlen.
  assert (Hne : spread <> []) by (intros ->; simpl in Hlen; lia).
  pose proof (std_exact spread Hlen) as Hstd.
  pose proof (mean_exact spread Hne) as Hmean.
  set (m := (foldl Rplus 0 spread / INR (length spread))%R) in *.
  set (Q := foldl Rplus 0%R (map (fun x => (m - x) * (m - x))%R spread)) in *.
  assert (HQ : (0 <= Q)%R) by apply Rsum_squares_nonneg.
  assert (Hn1 : (0 < INR (length spread - 1))%R) by (apply lt_0_INR; lia).
  assert (Hnumbers : std (T := xreal) (map Some spread) <> Some 0%R ->
    Forall (fun z => isnan z = false) (zscore (T := xreal) (map Some spread))).
  { intros Hnz. rewrite Hstd in Hnz.
    rewrite (zscore_exact spread m _ Hmean Hstd) by congruence.
    apply Forall_number. }
  split; [|split; [|exact Hnumbers]].
  - split.
    + intros Hzero. rewrite Hstd in Hzero. injection Hzero as Hzero.
      apply sqrt_eq_0 in Hzero;
        [|unfold Rdiv; apply Rmult_le_pos; [done | left; by apply Rinv_0_lt_compat]].
      assert (HQ0 : Q = 0%R).
      { unfold Rdiv in Hzero. apply Rmult_integral in Hzero as [|Hinv]; [done|].
        pose proof (Rinv_0_lt_compat _ Hn1). lra. }
      exists m. apply Rsum_squares_zero in HQ0.
      eapply Forall_impl; [exact HQ0|]. simpl. intros x Hx. lra.
    + intros [c Hall]. rewrite Hstd. f_equal.
      assert (Hm : m = c).
      { unfold m. clear -Hall Hne.
        assert (Hsum : foldl Rplus 0%R spread = (INR (length spread) * c)%R).
        { induction Hall as [|x l -> _ IH]; [simpl; lra|].
          rewrite Rsum_cons. cbn [length]. rewrite S_INR.
          destruct l as [|y l]; [simpl; lra|]. rewrite IH by done. lra. }
        rewrite Hsum. field. apply not_0_INR. by destruct spread. }
      assert (HQ0 : Q = 0%R).
      { unfold Q. rewrite Hm. clear -Hall.
        induction Hall as [|x l -> _ IH]; [done|].
        cbn [map]. rewrite Rsum_cons, IH. lra. }
      rewrite HQ0. unfold Rdiv. rewrite Rmult_0_l. apply sqrt_0.
  - split.
    + intros Hnan.
      destruct (Req_dec_T (R_sqrt.sqrt (Q / INR (length spread - 1))) 0)
        as [Hz|Hnz]; [by rewrite Hstd, Hz|].
      exfalso.
      assert (Hnumbers' : Forall (fun z : xreal => isnan z = false)
                                 (zscore (T := xreal) (map Some spread))).
      { apply Hnumbers. rewrite Hstd. congruence. }
      clear Hnumbers. rename Hnumbers' into Hnumbers.
      destruct spread as [|x l]; [done|].
      unfold zscore in Hnan, Hnumbers. simpl in Hnan, Hnumbers.
      inversion Hnan as [|? ? Hx _]. inversion Hnumbers as [|? ? Hx' _].
      congruence.
    + intros Hzero. rewrite zscore_undefined by (by left).
      apply Forall_nan.
Qed.

Lemma std_zero_iff_constant_witness :
  (std (T := xreal) (map Some [4; 4; 4]%R) = Some 0%R
   <-> exists c : R, Forall (fun x => x = c) [4; 4; 4]%R)
  /\ (Forall (fun z => isnan z = true)
             (zscore (T := xreal) (map Some [4; 4; 4]%R))
      <-> std (T := xreal) (map Some [4; 4; 4]%R) = Some 0%R)
  /\ (std (T := xreal) (map Some [4; 4; 4]%R) <> Some 0%R ->
      Forall (fun z => isnan z = false)
             (zscore (T := xreal) (map Some [4; 4; 4]%R))).
Proof. apply (std_zero_iff_constant [4; 4; 4]%R). simpl. lia. Defined.

(** ** The P&L columns in exact arithmetic *)

Section ExactPnL.
Implicit Types (l xs : list R) (a b c : R).

Local Abbreviation Rsum := (foldl Rplus 0%R).

(** The spread changes up to step [t] add up to the move since step 0. *)
Lemma Rsum_differences xs (x0 : R) (t : nat) (xt : R) :
  (x0 :: xs) !! t = Some xt ->
  Rsum (take t (zip_with Rminus xs (x0 :: xs))) = (xt - x0)%R.
Proof.
  revert x0 t. induction xs as [|x1 xs IH]; intros x0 t Ht.
  - destruct t as [|t]; simpl in *; [|done]. injection Ht as <-. lra.
  - destruct t as [|t].
    + simpl in *. injection Ht as <-. lra.
    + cbn [zip_with take]. rewrite Rsum_cons, (IH x1 t) by exact Ht. lra.
Qed.

Lemma Rsum_fmap_scale c l : Rsum (Rmult c <$> l) = (c * Rsum l)%R.
Proof.
  induction l as [|x l IH]; [simpl; lra|].
  cbn [fmap list_fmap]. rewrite !Rsum_cons.
  change (Rsum (list_fmap R R (Rmult c) l)) with (Rsum (Rmult c <$> l)).
  rewrite IH. lra.
Qed.

(** The cumulative P&L of a position [c] held at every step. *)
Lemma cum_pnl_held (c : Z) (spread : list R) (t : nat) (x0 xt : R) :
  spread !! 0%nat = Some x0 ->
  spread !! t = Some xt ->
  cum_pnl (T := xreal) (replicate (length spread) c) (map Some spread) !! t
  = Some (Some (IZR c * (xt - x0))%R).
Proof.
  intros H0 Ht.
  assert (Hlt : (t < length spread)%nat) by (by apply lookup_lt_Some in Ht).
  rewrite (cum_pnl_closed_form _ spread t (length_replicate _ _) Hlt).
  destruct spread as [|y xs]; [done|]. simpl in H0. injection H0 as ->.
  cbn [tail]. do 2 f_equal.
  rewrite map_fmap, fmap_replicate.
  rewrite zip_with_replicate_l
    by (rewrite length_zip_with; cbn [length]; lia).
  rewrite <- fmap_take, Rsum_fmap_scale.
  by rewrite (Rsum_differences xs x0 t xt Ht).
Qed.

End ExactPnL.

(** X11: in exact arithmetic, a position [c] held at every step earns, up to
    step [t], [c] times the move of the spread since step 0:
    cum_pnl[t] = c * (spread[t] - spread[0]). *)
Theorem cum_pnl_of_held_position (c : Z) (spread : list R) (t : nat)
    (x0 xt : R) :
  spread !! 0%nat = Some x0 ->
  spread !! t = Some xt ->
  cum_pnl (T := xreal) (replicate (length spread) c) (map Some spread) !! t
  = Some (Some (IZR c * (xt - x0))%R).
Proof. apply cum_pnl_held. Qed.

Lemma cum_pnl_of_held_position_witness :
  cum_pnl (T := xreal) (replicate (length [10; 12; 9]%R) (-1)%Z)
          (map Some [10; 12; 9]%R) !! 2%nat
  = Some (Some (IZR (-1) * (9 - 10))%R).
Proof.
  apply (cum_pnl_of_held_position (-1) [10; 12; 9]%R 2 10 9); reflexivity.
Defined.

Lemma cum_pnl_flat (spread : list R) :
  cum_pnl (T := xreal) (replicate (length spread) 0%Z) (map Some spread)
  = map (fun _ => Some 0%R) spread.
Proof.
  apply list_eq. intros t.
  rewrite (lookup_map (fun _ : R => Some 0%R : xreal) spread).
  destruct (spread !! t) as [xt|] eqn:Ht.
  - destruct (lookup_lt_is_Some_2 spread 0) as [x0 H0].
    { apply lookup_lt_Some in Ht. lia. }
    etransitivity; [exact (cum_pnl_held 0 spread t x0 xt H0 Ht)|].
    simpl. do 2 f_equal. lra.
  - apply lookup_ge_None_2. apply lookup_ge_None_1 in Ht.
    unfold cum_pnl, fillna0, cumsum.
    rewrite length_map, length_zip_with, length_pnl
      by (by rewrite length_replicate, length_map).
    rewrite length_map. lia.
Qed.

(** X12: in exact arithmetic, a position that is 0 at every step earns
    nothing, whatever the spread does: every entry of cum_pnl is 0. *)
Theorem cum_pnl_of_flat_position (spread : list R) :
  cum_pnl (T := xreal) (replicate (length spread) 0%Z) (map Some spread)
  = map (fun _ => Some 0%R) spread.
Proof. exact (cum_pnl_flat spread). Qed.

(** ** Missing values in the cumulative column *)

Section CumulativeFacts.
Context {T : Type} `{NanLaws T}.

Lemma length_cumsum (col : list T) : length (cumsum col) = length col.
Proof.
  unfold cumsum. rewrite length_zip_with, length_np_cumsum.
  unfold fillna0. rewrite length_map. lia.
Qed.

Lemma length_cum_pnl (position : list Z) (spread : list T) :
  length position = length spread ->
  length (cum_pnl position spread) = length spread.
Proof.
  intros Hlen. unfold cum_pnl, fillna0.
  by rewrite length_map, length_cumsum, length_pnl.
Qed.

Lemma fillna0_no_nan (col : list T) :
  Forall (fun x => isnan x = false) (fillna0 col).
Proof.
  unfold fillna0. induction col as [|x col IH]; simpl; constructor; [|exact IH].
  destruct (isnan x) eqn:Hx; [apply isnan_zero | exact Hx].
Qed.

Lemma cumsum_nan_row (col : list T) (t : nat) (x : T) :
  col !! t = Some x -> isnan x = true -> cumsum col !! t = Some nan.
Proof.
  intros Hx Hnan. unfold cumsum. rewrite lookup_zip_with, Hx. simpl.
  destruct (lookup_lt_is_Some_2 (np_cumsum (fillna0 col)) t) as [c Hc].
  { rewrite length_np_cumsum. unfold fillna0. rewrite length_map.
    by apply lookup_lt_Some in Hx. }
  rewrite Hc. simpl. by rewrite Hnan.
Qed.

End CumulativeFacts.

(** C1, as the code has it: for position and spread columns of equal length
    N >= 1, pnl[0] is not-a-number (which is not 0), for every t >= 1
    pnl[t] = position[t-1] * (spread[t] - spread[t-1]), and only the
    cumulative column has 0 as its first entry: cum_pnl[0] = 0. *)
Theorem pnl_entries {T : Type} `{NanLaws T} (position : list Z)
    (spread : list T) :
  length position = length spread ->
  (1 <= length spread)%nat ->
  pnl position spread !! 0%nat = Some nan
  /\ (nan : T) <> of_Z 0
  /\ (forall (t : nat) (p : Z) (s0 s1 : T),
        position !! t = Some p ->
        spread !! t = Some s0 ->
        spread !! S t = Some s1 ->
        pnl position spread !! S t = Some (mul (of_Z p) (sub s1 s0)))
  /\ cum_pnl position spread !! 0%nat = Some (of_Z 0).
Proof.
  intros Hlen HN.
  assert (Hfirst : pnl position spread !! 0%nat = Some nan).
  { unfold pnl, spread_diff. rewrite lookup_zip_with.
    rewrite shift1_lookup_0, diff_lookup_0.
    - simpl. by rewrite mul_nan_nan.
    - intros ->. simpl in HN. lia.
    - intros Hnil. apply (f_equal length) in Hnil.
      rewrite length_map in Hnil. simpl in Hnil. lia. }
  split; [exact Hfirst|]. split; [apply nan_not_zero|]. split.
  - intros t p s0 s1 Hp Hs0 Hs1.
    unfold pnl, spread_diff. rewrite lookup_zip_with.
    rewrite shift1_lookup_S.
    + rewrite lookup_map, Hp. simpl.
      by rewrite (diff_lookup_S spread t s0 s1).
    + rewrite length_map, Hlen. by apply lookup_lt_Some in Hs1.
  - unfold cum_pnl, fillna0.
    rewrite lookup_map, (cumsum_nan_row _ 0 nan Hfirst isnan_nan). simpl.
    by rewrite isnan_nan.
Qed.

Lemma pnl_entries_witness :
  pnl (T := float) [1; -1; 0]%Z [of_Z 10; of_Z 12; of_Z 9] !! 0%nat = Some nan
  /\ (nan : float) <> of_Z 0
  /\ (forall (t : nat) (p : Z) (s0 s1 : float),
        [1; -1; 0]%Z !! t = Some p ->
        [of_Z 10; of_Z 12; of_Z 9] !! t = Some s0 ->
        [of_Z 10; of_Z 12; of_Z 9] !! S t = Some s1 ->
        pnl [1; -1; 0]%Z [of_Z 10; of_Z 12; of_Z 9] !! S t
        = Some (mul (of_Z p) (sub s1 s0)))
  /\ cum_pnl (T := float) [1; -1; 0]%Z [of_Z 10; of_Z 12; of_Z 9] !! 0%nat
     = Some (of_Z 0).
Proof.
  apply (pnl_entries (T := float) [1; -1; 0]%Z [of_Z 10; of_Z 12; of_Z 9]).
  - reflexivity.
  - simpl. lia.
Defined.

(** ** The cumulative column, row by row *)

Section CumulativeRows.
Context {T : Type} `{NanLaws T}.

Lemma fillna0_cons (x : T) (col : list T) :
  fillna0 (x :: col) = (if isnan x then of_Z 0 else x) :: fillna0 col.
Proof. reflexivity. Qed.

Lemma cumsum_cons_nan (rest : list T) :
  cumsum (nan :: rest)
  = nan :: zip_with (fun x c => if isnan x then nan else c) rest
                    (running (of_Z 0) (fillna0 rest)).
Proof.
  unfold cumsum. rewrite fillna0_cons, isnan_nan.
  cbn [np_cumsum zip_with]. by rewrite isnan_nan.
Qed.

(** A P&L column that has rows starts with not-a-number. *)
Lemma pnl_starts_with_nan (position : list Z) (spread : list T) :
  pnl position spread = []
  \/ exists rest, pnl position spread = nan :: rest.
Proof.
  unfold pnl, spread_diff, shift1, diff.
  destruct position as [|p ps]; [by left|].
  destruct spread as [|x xs]; [by left|].
  right. cbn [map length take zip_with]. rewrite mul_nan_nan. eauto.
Qed.

End CumulativeRows.

(** C10, as the code has it: in every row t of the frame, cum_pnl[t] is the
    sum, added up from row 1 to row t, of the entries pnl[1..t] with their
    not-a-number entries counted as 0, except that cum_pnl[t] is 0 when
    pnl[t] is not-a-number (as it always is in row 0) or when that sum is
    itself not-a-number; this holds in the last row N-1 as in every other. *)
Theorem cum_pnl_rows {T : Type} `{NanLaws T} (position : list Z)
    (spread : list T) (t : nat) (x : T) :
  pnl position spread !! t = Some x ->
  cum_pnl position spread !! t
  = Some (let s := total (fillna0 (take t (tail (pnl position spread)))) in
          if isnan x || isnan s then of_Z 0 else s).
Proof.
  intros Hx. unfold cum_pnl.
  destruct (pnl_starts_with_nan position spread) as [Hnil | [rest Hcol]];
    rewrite ?Hnil, ?Hcol in *; [done|].
  rewrite cumsum_cons_nan, fillna0_cons, isnan_nan. cbn [tail].
  destruct t as [|t].
  - simpl in Hx. injection Hx as <-. simpl. by rewrite isnan_nan.
  - change (rest !! t = Some x) in Hx.
    change ((of_Z 0 :: ?l) !! S t) with (l !! t).
    assert (Ht : (t < length rest)%nat) by (by apply lookup_lt_Some in Hx).
    unfold fillna0 at 1. rewrite lookup_map, lookup_zip_with, Hx.
    rewrite running_lookup by (unfold fillna0; by rewrite length_map).
    cbn [mbind option_bind fmap option_fmap option_map].
    replace (foldl add (of_Z 0) (take (S t) (fillna0 rest)))
      with (total (fillna0 (take (S t) rest)))
      by (unfold total, fillna0; by rewrite firstn_map).
    cbv zeta. destruct (isnan x); simpl; [by rewrite isnan_nan|].
    by destruct (isnan (total (fillna0 (take (S t) rest)))).
Qed.

Lemma cum_pnl_rows_witness :
  cum_pnl (T := float) [1; -1; 0]%Z [of_Z 10; of_Z 12; of_Z 9] !! 2%nat
  = Some (let s := total (fillna0 (take 2
                     (tail (pnl [1; -1; 0]%Z [of_Z 10; of_Z 12; of_Z 9])))) in
          if isnan (of_Z 3 : float) || isnan s then of_Z 0 else s).
Proof.
  apply (cum_pnl_rows (T := float) [1; -1; 0]%Z [of_Z 10; of_Z 12; of_Z 9]
           2 (of_Z 3)).
  vm_compute. reflexivity.
Defined.

(** C10 as stated fails on the code: with positions [1, 0, 0] and the finite
    spread [0, 2^1023, -2^1023] the last P&L entry is 0 * -inf, not-a-number,
    so the last entry of cum_pnl is 0, while the P&L entries that are
    numbers add up to 2^1023 and the plain sum of the column is
    not-a-number. *)
Lemma cum_pnl_is_not_the_sum :
  cum_pnl (T := float) [1; 0; 0]%Z [of_Z 0; 0x1p1023%float; (-0x1p1023)%float]
    !! 2%nat
  = Some (of_Z 0)
  /\ total (fillna0
              (pnl (T := float) [1; 0; 0]%Z
                   [of_Z 0; 0x1p1023%float; (-0x1p1023)%float]))
     = 0x1p1023%float
  /\ PrimFloat.eqb (of_Z 0) 0x1p1023%float = false
  /\ isnan (total (pnl (T := float) [1; 0; 0]%Z
                        [of_Z 0; 0x1p1023%float; (-0x1p1023)%float]))
     = true.
Proof. repeat split; vm_compute; reflexivity. Qed.

(** X13: the cumulative column never holds not-a-number, and in a row whose
    P&L entry is not-a-number (the first row, or a row next to a missing
    spread value) it holds 0, not the sum so far. *)
Theorem cum_pnl_nan_row_is_zero {T : Type} `{NanLaws T} (position : list Z)
    (spread : list T) (t : nat) (x : T) :
  pnl position spread !! t = Some x ->
  isnan x = true ->
  cum_pnl position spread !! t = Some (of_Z 0)
  /\ Forall (fun c => isnan c = false) (cum_pnl position spread).
Proof.
  intros Hx Hnan. split; [|apply fillna0_no_nan].
  unfold cum_pnl, fillna0.
  rewrite lookup_map, (cumsum_nan_row _ t x Hx Hnan). simpl.
  by rewrite isnan_nan.
Qed.

Lemma cum_pnl_nan_row_is_zero_witness :
  cum_pnl (T := float) [1; 1; 1; 1]%Z [of_Z 1; nan; of_Z 3; of_Z 4] !! 2%nat
  = Some (of_Z 0)
  /\ Forall (fun c => isnan c = false)
            (cum_pnl (T := float) [1; 1; 1; 1]%Z [of_Z 1; nan; of_Z 3; of_Z 4]).
Proof.
  apply (cum_pnl_nan_row_is_zero (T := float) [1; 1; 1; 1]%Z
           [of_Z 1; nan; of_Z 3; of_Z 4] 2 nan).
  - vm_compute. reflexivity.
  - reflexivity.
Defined.

(** ** The cells in sequence *)

(** X14: on two price columns of one length N, the cells after the test
    fail only at the spread cell, when [evec] has fewer than two entries;
    otherwise each of the five columns has N rows. *)
Theorem analyse_columns {T : Type} `{Number T} (evec S1 S2 : list T)
    (entry_z exit_z : T) :
  length S1 = length S2 ->
  match analyse evec S1 S2 entry_z exit_z with
  | None => (length evec < 2)%nat
  | Some f =>
      (2 <= length evec)%nat
      /\ length (col_spread f) = length S1
      /\ length (col_zscore f) = length S1
      /\ length (col_position f) = length S1
      /\ length (col_pnl f) = length S1
      /\ length (col_cum_pnl f) = length S1
  end.
Proof.
  intros Hlen. unfold analyse.
  destruct evec as [|e0 [|e1 rest]]; cbn [spread lookup list_lookup mbind option_bind];
    [simpl; lia | simpl; lia |].
  set (sp := zip_with add (map (mul e0) S1) (map (mul e1) S2)).
  assert (Hsp : length sp = length S1).
  { unfold sp. rewrite length_zip_with, !length_map. lia. }
  assert (Hz : length (zscore sp) = length sp).
  { unfold zscore. by rewrite length_map. }
  rewrite position_column_scan. cbn [mbind option_bind].
  set (ps := map state_value (scan entry_z exit_z FLAT (zscore sp))).
  assert (Hps : length ps = length sp).
  { unfold ps. by rewrite length_map, length_scan. }
  cbn [col_spread col_zscore col_position col_pnl col_cum_pnl length].
  repeat split; try lia.
  - by rewrite length_pnl.
  - unfold cum_pnl, fillna0, cumsum.
    rewrite length_map, length_zip_with, length_np_cumsum. unfold fillna0.
    rewrite length_map, length_pnl by done. lia.
Qed.

Lemma analyse_columns_witness :
  match analyse (T := float) [of_Z 1; of_Z (-1)]
                [of_Z 10; of_Z 11; of_Z 12; of_Z 13]
                [of_Z 10; of_Z 13; of_Z 12; of_Z 13]
                entry_z_default exit_z_default with
  | None => (length [of_Z 1; of_Z (-1) : float] < 2)%nat
  | Some f =>
      (2 <= length [of_Z 1; of_Z (-1) : float])%nat
      /\ length (col_spread f) = length [of_Z 10; of_Z 11; of_Z 12; of_Z 13 : float]
      /\ length (col_zscore f) = length [of_Z 10; of_Z 11; of_Z 12; of_Z 13 : float]
      /\ length (col_position f) = length [of_Z 10; of_Z 11; of_Z 12; of_Z 13 : float]
      /\ length (col_pnl f) = length [of_Z 10; of_Z 11; of_Z 12; of_Z 13 : float]
      /\ length (col_cum_pnl f) = length [of_Z 10; of_Z 11; of_Z 12; of_Z 13 : float]
  end.
Proof.
  apply (analyse_columns (T := float) [of_Z 1; of_Z (-1)]
           [of_Z 10; of_Z 11; of_Z 12; of_Z 13]
           [of_Z 10; of_Z 13; of_Z 12; of_Z 13]
           entry_z_default exit_z_default).
  reflexivity.
Defined.

Section ExactPipeline.
Implicit Types (xs prices : list R) (a b : R).

Lemma map_constant {A B : Type} (c : B) (l : list A) :
  map (fun _ => c) l = replicate (length l) c.
Proof. induction l as [|x l IH]; simpl; [done | by rewrite IH]. Qed.

(** An all-NaN z-score column never leaves FLAT. *)
Lemma scan_all_nan {A : Type} (entry_z exit_z : xreal) (l : list A) :
  scan entry_z exit_z FLAT (map (fun _ => None) l) = map (fun _ => FLAT) l.
Proof.
  induction l as [|x l IH]; cbn [map scan]; [done|].
  assert (Hflat : transition entry_z exit_z FLAT None = FLAT).
  { unfold transition, gt. simpl. by destruct entry_z. }
  by rewrite Hflat, IH.
Qed.

Lemma zscore_zeros xs :
  zscore (T := xreal) (map Some (map (fun _ => 0%R) xs))
  = map (fun _ => None) xs.
Proof.
  rewrite zscore_undefined; [by rewrite !map_map|].
  destruct (decide (2 <= length xs)%nat) as [Hmany | Hfew].
  - left. by apply std_zeros.
  - right. apply std_few. rewrite count_some, length_map. lia.
Qed.

Lemma zip_with_Rminus_affine a b xs ys :
  zip_with Rminus (map (fun x => a * x + b)%R xs) (map (fun x => a * x + b)%R ys)
  = Rmult a <$> zip_with Rminus xs ys.
Proof.
  revert ys. induction xs as [|x xs IH]; intros [|y ys]; simpl; try done.
  rewrite IH. f_equal. lra.
Qed.

Lemma zip_with_Rmult_scale a (ps ds : list R) :
  zip_with Rmult ps (Rmult a <$> ds) = Rmult a <$> zip_with Rmult ps ds.
Proof.
  revert ds. induction ps as [|p ps IH]; intros [|d ds]; simpl; try done.
  rewrite IH. f_equal. lra.
Qed.

Lemma tail_map {A B : Type} (f : A -> B) (l : list A) :
  tail (map f l) = map f (tail l).
Proof. by destruct l. Qed.

(** The cumulative P&L of a rescaled and shifted spread. *)
Lemma cum_pnl_affine a b (position : list Z) xs (t : nat) :
  length position = length xs ->
  (t < length xs)%nat ->
  exists v : R,
    cum_pnl (T := xreal) position (map Some xs) !! t = Some (Some v)
    /\ cum_pnl (T := xreal) position (map Some (map (fun x => a * x + b)%R xs))
         !! t
       = Some (Some (a * v)%R).
Proof.
  intros Hlen Ht. eexists. split; [by apply cum_pnl_closed_form|].
  rewrite cum_pnl_closed_form by (by rewrite ?length_map).
  do 2 f_equal.
  rewrite tail_map, zip_with_Rminus_affine, zip_with_Rmult_scale.
  by rewrite <- fmap_take, Rsum_fmap_scale.
Qed.

End ExactPipeline.

(** X15: with the weighting vector [1, -1] and twice the same real-valued
    price series, of any length and for any thresholds, the cells run to the
    end without trading: every z-score is not-a-number, every position is 0
    and every entry of cum_pnl is 0. *)
Theorem identical_prices_never_trade (prices : list R)
    (entry_z exit_z : xreal) :
  exists f : frame xreal,
    analyse (T := xreal) [of_Z 1; of_Z (-1)] (map Some prices)
            (map Some prices) entry_z exit_z
    = Some f
    /\ col_zscore f = map (fun _ => None) prices
    /\ col_position f = map (fun _ => 0%Z) prices
    /\ col_cum_pnl f = map (fun _ => Some 0%R) prices.
Proof.
  unfold analyse. rewrite spread_identical. cbn [mbind option_bind].
  rewrite zscore_zeros, position_column_scan, scan_all_nan.
  rewrite (map_map (fun _ : R => FLAT) state_value). cbn [state_value].
  cbn [mbind option_bind]. eexists. split; [reflexivity|].
  cbn [col_zscore col_position col_cum_pnl].
  split; [done|]. split; [done|].
  rewrite (map_constant 0%Z prices).
  replace (length prices) with (length (map (fun _ : R => 0%R) prices))
    by apply length_map.
  by rewrite cum_pnl_flat, map_map.
Qed.

(** X16: in exact arithmetic the cumulative P&L is linear in the spread:
    rescaling the spread by [a] and shifting it by [b], with the positions
    kept, multiplies every entry of cum_pnl by [a]. *)
Theorem cum_pnl_scales_with_spread (a b : R) (position : list Z)
    (spread : list R) (t : nat) :
  length position = length spread ->
  (t < length spread)%nat ->
  exists v : R,
    cum_pnl (T := xreal) position (map Some spread) !! t = Some (Some v)
    /\ cum_pnl (T := xreal) position
                (map Some (map (fun x => a * x + b)%R spread)) !! t
       = Some (Some (a * v)%R).
Proof. exact (cum_pnl_affine a b position spread t). Qed.

Lemma cum_pnl_scales_with_spread_witness :
  exists v : R,
    cum_pnl (T := xreal) [1; -1; 0]%Z (map Some [10; 12; 9]%R) !! 2%nat
    = Some (Some v)
    /\ cum_pnl (T := xreal) [1; -1; 0]%Z
                (map Some (map (fun x => 3 * x + 1)%R [10; 12; 9]%R)) !! 2%nat
       = Some (Some (3 * v)%R).
Proof.
  apply (cum_pnl_scales_with_spread 3 1 [1; -1; 0]%Z [10; 12; 9]%R 2).
  - reflexivity.
  - simpl. lia.
Defined.

Section RescaledWeights.
Implicit Types (xs ys : list R) (a : R).

Lemma spread_exact (e0 e1 : R) xs ys :
  spread (T := xreal) [Some e0; Some e1] (map Some xs) (map Some ys)
  = Some (map Some (zip_with (fun x y => e0 * x + e1 * y)%R xs ys)).
Proof.
  unfold spread. simpl. f_equal.
  revert ys. induction xs as [|x xs IH]; intros [|y ys]; simpl; try done.
  by rewrite IH.
Qed.

Lemma zip_with_rescaled a (e0 e1 : R) xs ys :
  zip_with (fun x y => a * e0 * x + a * e1 * y)%R xs ys
  = map (fun s => a * s + 0)%R (zip_with (fun x y => e0 * x + e1 * y)%R xs ys).
Proof.
  revert ys. induction xs as [|x xs IH]; intros [|y ys]; simpl; try done.
  rewrite IH. f_equal. lra.
Qed.

End RescaledWeights.

(** X17: in exact arithmetic the scale of the weighting vector does not
    matter to the signal: multiplying both weights by [a > 0] leaves every
    z-score and every position as it was, and multiplies every entry of
    cum_pnl by [a]. *)
Theorem rescaled_weights_same_signal (a e0 e1 : R) (S1 S2 : list R)
    (entry_z exit_z : xreal) :
  (0 < a)%R ->
  exists f f' : frame xreal,
    analyse (T := xreal) [Some e0; Some e1] (map Some S1) (map Some S2) entry_z exit_z
    = Some f
    /\ analyse (T := xreal) [Some (a * e0)%R; Some (a * e1)%R] (map Some S1) (map Some S2)
               entry_z exit_z
       = Some f'
    /\ col_zscore f' = col_zscore f
    /\ col_position f' = col_position f
    /\ forall (t : nat) (v : R),
         col_cum_pnl f !! t = Some (Some v) ->
         col_cum_pnl f' !! t = Some (Some (a * v)%R).
Proof.
  intros Ha. unfold analyse.
  rewrite !spread_exact, zip_with_rescaled. cbn [mbind option_bind].
  set (sp := zip_with (fun x y => e0 * x + e1 * y)%R S1 S2).
  rewrite (zscore_affine a 0 sp Ha).
  rewrite position_column_scan. cbn [mbind option_bind].
  set (ps := map state_value
                 (scan entry_z exit_z FLAT (zscore (T := xreal) (map Some sp)))).
  assert (Hps : length ps = length sp).
  { unfold ps, zscore. by rewrite length_map, length_scan, !length_map. }
  do 2 eexists. split; [reflexivity|]. split; [reflexivity|].
  cbn [col_zscore col_position col_cum_pnl].
  split; [done|]. split; [done|].
  intros t v Hv.
  assert (Ht : (t < length sp)%nat).
  { apply lookup_lt_Some in Hv.
    rewrite length_cum_pnl in Hv by (by rewrite length_map).
    by rewrite length_map in Hv. }
  destruct (cum_pnl_affine a 0 ps sp t Hps Ht) as (v' & Hv' & Hscaled).
  rewrite Hv' in Hv. injection Hv as <-. exact Hscaled.
Qed.

Lemma rescaled_weights_same_signal_witness :
  exists f f' : frame xreal,
    analyse (T := xreal) [Some 1%R; Some (-1)%R] (map Some [10; 11; 12]%R)
            (map Some [10; 13; 12]%R) entry_z_default exit_z_default
    = Some f
    /\ analyse (T := xreal) [Some (2 * 1)%R; Some (2 * -1)%R] (map Some [10; 11; 12]%R)
               (map Some [10; 13; 12]%R) entry_z_default exit_z_default
       = Some f'
    /\ col_zscore f' = col_zscore f
    /\ col_position f' = col_position f
    /\ forall (t : nat) (v : R),
         col_cum_pnl f !! t = Some (Some v) ->
         col_cum_pnl f' !! t = Some (Some (2 * v)%R).
Proof.
  apply (rescaled_weights_same_signal 2 1 (-1) [10; 11; 12]%R [10; 13; 12]%R
           entry_z_default exit_z_default).
  lra.
Defined.

(** ** The summary of the position column *)

#[export] Instance by_index_total : Total by_index.
Proof. intros a b. unfold by_index. lia. Qed.

Section ValueCounts.
Implicit Types (col ks : list Z) (v : Z).

Lemma count_indicator v ks :
  NoDup ks -> v ∈ ks ->
  sum_list_with (fun k => if Z.eq_dec v k then 1%nat else 0%nat) ks = 1%nat.
Proof.
  intros Hnd. induction Hnd as [|k ks Hk Hnd IH]; intros Hin.
  - by apply elem_of_nil in Hin.
  - simpl. destruct (Z.eq_dec v k) as [-> | Hne].
    + assert (Hrest : sum_list_with
                        (fun k' => if Z.eq_dec k k' then 1%nat else 0%nat) ks
                      = 0%nat).
      { clear IH Hnd Hin. induction ks as [|k' ks IH]; simpl; [done|].
        destruct (Z.eq_dec k k') as [-> | _].
        - exfalso. apply Hk. by left.
        - apply IH. intros Hin. apply Hk. by right. }
      lia.
    + apply elem_of_cons in Hin as [? | Hin]; [done|]. by rewrite IH.
Qed.

(** Counting the occurrences of each key once accounts for every row. *)
Lemma count_occ_total col ks :
  NoDup ks -> (forall v, v ∈ col -> v ∈ ks) ->
  sum_list_with (fun k => count_occ Z.eq_dec col k) ks = length col.
Proof.
  intros Hnd. induction col as [|v col IH]; intros Hin.
  - simpl. clear. induction ks as [|k ks IH]; simpl; [done | by rewrite IH].
  - assert (Hsplit : sum_list_with (fun k => count_occ Z.eq_dec (v :: col) k) ks
             = (sum_list_with (fun k => if Z.eq_dec v k then 1 else 0) ks
                + sum_list_with (fun k => count_occ Z.eq_dec col k) ks)%nat).
    { clear. induction ks as [|k ks IH]; [done|].
      cbn [sum_list_with]. rewrite IH. cbn [count_occ].
      destruct (Z.eq_dec v k); lia. }
    etransitivity; [exact Hsplit|].
    rewrite count_indicator, IH; simpl; try done.
    + intros v' Hv'. apply Hin. by right.
    + apply Hin. by left.
Qed.

Lemma position_counts_Permutation col :
  position_counts col
  ≡ₚ (fun v => (v, count_occ Z.eq_dec col v)) <$> remove_dups col.
Proof.
  unfold position_counts, sort_index, value_counts.
  by rewrite !merge_sort_Permutation, map_fmap.
Qed.

Lemma position_counts_rows col v (n : nat) :
  (v, n) ∈ position_counts col
  <-> v ∈ col /\ n = count_occ Z.eq_dec col v.
Proof.
  rewrite position_counts_Permutation, list_elem_of_fmap. split.
  - intros (v' & Heq & Hin). injection Heq as Hv Hn. subst v n.
    split; [by apply elem_of_remove_dups | reflexivity].
  - intros [Hin ->]. exists v. by rewrite elem_of_remove_dups.
Qed.

Lemma position_counts_total col :
  sum_list ((position_counts col).*2) = length col.
Proof.
  rewrite position_counts_Permutation. rewrite <- list_fmap_compose.
  transitivity (sum_list_with (fun k => count_occ Z.eq_dec col k)
                              (remove_dups col)).
  - generalize (remove_dups col). intros ks.
    induction ks as [|k ks IH]; [done|]. simpl. f_equal. exact IH.
  - apply count_occ_total; [apply NoDup_remove_dups|].
    intros v Hv. by apply elem_of_remove_dups.
Qed.

End ValueCounts.

(** X18: [value_counts().sort_index()] lists exactly the values that occur
    in the column, each once with the number of its occurrences (at least 1),
    in increasing order of value, and the counts add up to the number of
    rows. *)
Theorem position_counts_summary (position : list Z) :
  sum_list ((position_counts position).*2) = length position
  /\ (forall (v : Z) (n : nat),
        (v, n) ∈ position_counts position
        <-> v ∈ position /\ n = count_occ Z.eq_dec position v /\ (1 <= n)%nat)
  /\ Sorted by_index (position_counts position)
  /\ NoDup ((position_counts position).*1).
Proof.
  split; [apply position_counts_total|]. split; [|split].
  - intros v n. rewrite position_counts_rows. split.
    + intros [Hin ->]. repeat split; [done|].
      apply list_elem_of_In in Hin.
      by apply (count_occ_In Z.eq_dec) in Hin.
    + intros (Hin & -> & _). by split.
  - apply (Sorted_merge_sort by_index).
  - rewrite position_counts_Permutation, <- list_fmap_compose.
    assert (Hid : (fst ∘ (fun v => (v, count_occ Z.eq_dec position v)))
                  <$> remove_dups position = remove_dups position).
    { generalize (remove_dups position). intros ks.
      induction ks as [|k ks IH]; [done|]. simpl. f_equal. exact IH. }
    rewrite Hid. apply NoDup_remove_dups.
Qed.

(** X19: the summary the signal cell displays has at most three rows, for
    the values -1, 0 and +1, and its counts add up to the number of rows of
    the z-score column. *)
Theorem notebook_position_counts {T : Type} `{Number T} (entry_z exit_z : T)
    (zscore : list T) :
  exists ps : list Z,
    position_column entry_z exit_z zscore = Some ps
    /\ sum_list ((position_counts ps).*2) = length zscore
    /\ (length (position_counts ps) <= 3)%nat
    /\ Forall (fun row : Z * nat => row.1 = -1 \/ row.1 = 0 \/ row.1 = 1)%Z
              (position_counts ps).
Proof.
  exists (map state_value (scan entry_z exit_z FLAT zscore)).
  set (ps := map state_value (scan entry_z exit_z FLAT zscore)).
  assert (Hrange : forall v, v ∈ ps -> (v = -1 \/ v = 0 \/ v = 1)%Z).
  { intros v Hv. unfold ps in Hv. rewrite map_fmap in Hv.
    apply list_elem_of_fmap in Hv as (s & -> & _). apply state_value_range. }
  assert (Hrows : Forall (fun row : Z * nat =>
                            row.1 = -1 \/ row.1 = 0 \/ row.1 = 1)%Z
                         (position_counts ps)).
  { apply Forall_forall. intros [v n] Hin.
    apply position_counts_rows in Hin as [Hin _]. by apply Hrange. }
  split; [apply position_column_scan|].
  split; [by rewrite position_counts_total; unfold ps;
             rewrite length_map, length_scan|].
  split; [|exact Hrows].
  assert (Hnd : NoDup ((position_counts ps).*1)).
  { rewrite position_counts_Permutation, <- list_fmap_compose.
    assert (Hid : (fst ∘ (fun v => (v, count_occ Z.eq_dec ps v)))
                  <$> remove_dups ps = remove_dups ps).
    { generalize (remove_dups ps). intros ks.
      induction ks as [|k ks IH]; [done|]. simpl. f_equal. exact IH. }
    rewrite Hid. apply NoDup_remove_dups. }
  rewrite <- (length_fmap fst).
  assert (Hsub : (position_counts ps).*1 ⊆ [-1; 0; 1]%Z).
  { intros v Hv. apply list_elem_of_fmap in Hv as ([v' n] & -> & Hin).
    rewrite Forall_forall in Hrows. specialize (Hrows _ Hin). simpl in *.
    destruct Hrows as [-> | [-> | ->]]; repeat constructor. }
  apply (submseteq_length _ [-1; 0; 1]%Z).
  by apply NoDup_submseteq.
Qed.

Example position_counts_example :
  position_counts [0; 1; 1; -1; 0; 1]%Z = [(-1, 1%nat); (0, 2%nat); (1, 3%nat)]%Z.
Proof. vm_compute. reflexivity. Qed.

(** ** Longer runs of the generator *)

Section GeneratorPrefix.
Context {T : Type} `{Number T}.
Context {rng : Type} (gauss : rng -> T * rng).

Lemma draws_add (k m : nat) (scale : T) (g : rng) :
  draws gauss (k + m) scale g
  = ((draws gauss k scale g).1
       ++ (draws gauss m scale (draws gauss k scale g).2).1,
     (draws gauss m scale (draws gauss k scale g).2).2).
Proof.
  revert g. induction k as [|k IH]; intros g; simpl.
  - by destruct (draws gauss m scale g).
  - destruct (gauss g) as [z g1]. rewrite (IH g1).
    by destruct (draws gauss k scale g1) as [zs g2].
Qed.

Lemma running_app (acc : T) (col more : list T) :
  running acc (col ++ more)
  = running acc col ++ running (foldl add acc col) more.
Proof.
  revert acc. induction col as [|x col IH]; intros acc; simpl; [done|].
  by rewrite IH.
Qed.

Lemma np_cumsum_prefix (col more : list T) :
  take (length col) (np_cumsum (col ++ more)) = np_cumsum col.
Proof.
  destruct col as [|x col]; simpl; [done|].
  rewrite running_app, take_app_length'; [done|].
  by rewrite length_running.
Qed.

End GeneratorPrefix.

(** X20: with the same generator state and parameters, a longer run starts
    with the shorter run's first series: for 0 <= n <= n', the first [n]
    values of the S1 generated for [n'] are the S1 generated for [n]. *)
Theorem generate_S1_extends {T : Type} `{Number T} {rng : Type}
    (gauss : rng -> T * rng) (n n' : Z) (offset beta_true scale1 scale2 : T)
    (g : rng) :
  (0 <= n <= n')%Z ->
  exists (S1 S2 S1' S2' : list T) (g1 g1' : rng),
    generate gauss n offset beta_true scale1 scale2 g = Ok (S1, S2, g1)
    /\ generate gauss n' offset beta_true scale1 scale2 g = Ok (S1', S2', g1')
    /\ take (Z.to_nat n) S1' = S1.
Proof.
  intros Hn. unfold generate, normal.
  destruct (Z.ltb_spec n 0) as [|_]; [lia|].
  destruct (Z.ltb_spec n' 0) as [|_]; [lia|].
  replace (Z.to_nat n') with (Z.to_nat n + (Z.to_nat n' - Z.to_nat n))%nat
    by lia.
  rewrite (draws_add gauss (Z.to_nat n)).
  pose proof (length_draws gauss (Z.to_nat n) scale1 g) as Hlen.
  destruct (draws gauss (Z.to_nat n) scale1 g) as [eps1 g1]. simpl in Hlen |- *.
  destruct (draws gauss (Z.to_nat n' - Z.to_nat n) scale1 g1) as [more g1'].
  cbn [fst snd].
  destruct (draws gauss (Z.to_nat n) scale2 g1) as [eps2 g2].
  destruct (draws gauss (Z.to_nat n + (Z.to_nat n' - Z.to_nat n)) scale2 g1')
    as [eps2' g2'].
  do 6 eexists. split; [reflexivity|]. split; [reflexivity|].
  by rewrite <- Hlen, firstn_map, np_cumsum_prefix.
Qed.

Lemma generate_S1_extends_witness :
  exists (S1 S2 S1' S2' : list float) (g1 g1' : Z),
    generate lcg_gauss 2 (of_Z 100) (lit 8 10) (of_Z 1) (of_Z 2) 42%Z
    = Ok (S1, S2, g1)
    /\ generate lcg_gauss 5 (of_Z 100) (lit 8 10) (of_Z 1) (of_Z 2) 42%Z
       = Ok (S1', S2', g1')
    /\ take (Z.to_nat 2) S1' = S1.
Proof.
  apply (generate_S1_extends (T := float) lcg_gauss 2 5 (of_Z 100) (lit 8 10)
           (of_Z 1) (of_Z 2) 42%Z).
  lia.
Defined.

(** ** Runs without a signal, and runs with the default exit threshold *)

Section Regimes.
Context {T : Type} `{Number T}.
Variables entry_z exit_z : T.

Lemma scan_no_signal (zs : list T) :
  Forall (fun z => lt z (neg entry_z) = false /\ gt z entry_z = false) zs ->
  scan entry_z exit_z FLAT zs = map (fun _ => FLAT) zs.
Proof.
  induction 1 as [|z zs [Hlong Hshort] _ IH]; cbn [scan map]; [done|].
  assert (Hflat : transition entry_z exit_z FLAT z = FLAT).
  { simpl. by rewrite Hlong, Hshort. }
  by rewrite Hflat, IH.
Qed.

Lemma scan_held (s : state) (zs : list T) :
  (forall z, lt (fabs z) exit_z = false) ->
  s <> FLAT ->
  scan entry_z exit_z s zs = replicate (length zs) s.
Proof.
  intros Hexit Hs. induction zs as [|z zs IH]; cbn [scan length replicate]; [done|].
  by rewrite (transition_held entry_z exit_z s z Hexit Hs), IH.
Qed.

(** Flat up to some step, then one state for the rest of the run. *)
Lemma scan_enters_once (zs : list T) :
  (forall z, lt (fabs z) exit_z = false) ->
  exists (k : nat) (s : state),
    (k <= length zs)%nat
    /\ s <> FLAT
    /\ scan entry_z exit_z FLAT zs
       = replicate k FLAT ++ replicate (length zs - k) s.
Proof.
  intros Hexit. induction zs as [|z zs IH].
  - exists 0%nat, LONG_SPREAD. by repeat split.
  - cbn [scan].
    destruct (transition entry_z exit_z FLAT z) as [| |] eqn:Hstep.
    + destruct IH as (k & s & Hk & Hs & Hscan).
      exists (S k), s. cbn [length]. repeat split; [lia | done |].
      by rewrite Hscan.
    + exists 0%nat, LONG_SPREAD. cbn [length replicate app].
      repeat split; [lia | done |].
      rewrite scan_held by done. by rewrite Nat.sub_0_r.
    + exists 0%nat, SHORT_SPREAD. cbn [length replicate app].
      repeat split; [lia | done |].
      rewrite scan_held by done. by rewrite Nat.sub_0_r.
Qed.

Lemma column_enters_once (zs : list T) :
  (forall z, lt (fabs z) exit_z = false) ->
  exists (k : nat) (v : Z),
    (k <= length zs)%nat
    /\ (v = 1 \/ v = -1)%Z
    /\ position_column entry_z exit_z zs
       = Some (replicate k 0%Z ++ replicate (length zs - k) v).
Proof.
  intros Hexit.
  destruct (scan_enters_once zs Hexit) as (k & s & Hk & Hs & Hscan).
  exists k, (state_value s). split; [done|]. split.
  - destruct s; simpl; auto. done.
  - rewrite position_column_scan, Hscan, map_app, !map_fmap, !fmap_replicate.
    reflexivity.
Qed.

End Regimes.

(** X21: if no z-score passes an entry test, the position is 0 at every
    step, whatever the exit threshold. *)
Theorem no_signal_stays_flat {T : Type} `{Number T} (entry_z exit_z : T)
    (zscore : list T) :
  Forall (fun z => lt z (neg entry_z) = false /\ gt z entry_z = false) zscore ->
  position_column entry_z exit_z zscore = Some (map (fun _ => 0%Z) zscore).
Proof.
  intros Hquiet.
  rewrite position_column_scan, (scan_no_signal entry_z exit_z zscore Hquiet).
  by rewrite map_map.
Qed.

Lemma no_signal_stays_flat_witness :
  position_column (T := float) (of_Z 1) (lit 5 10)
                  [lit 5 10; neg (lit 9 10); of_Z 1]
  = Some (map (fun _ => 0%Z) [lit 5 10; neg (lit 9 10); of_Z 1 : float]).
Proof.
  apply (no_signal_stays_flat (T := float) (of_Z 1) (lit 5 10)
           [lit 5 10; neg (lit 9 10); of_Z 1]).
  repeat constructor; vm_compute; reflexivity.
Defined.

(** X22: with the notebook's exit threshold 0.0 the strategy trades at most
    once: on binary64 z-scores, for every entry threshold, the position
    column is a run of 0 followed by a run of one value, +1 or -1, that lasts
    to the end. *)
Theorem default_exit_trades_once (entry_z : float) (zscore : list float) :
  exists (k : nat) (v : Z),
    (k <= length zscore)%nat
    /\ (v = 1 \/ v = -1)%Z
    /\ position_column entry_z exit_z_default zscore
       = Some (replicate k 0%Z ++ replicate (length zscore - k) v).
Proof.
  exact (column_enters_once entry_z exit_z_default zscore
           float_abs_not_negative).
Qed.

(** The same in exact arithmetic. *)
Lemma default_exit_trades_once_exact (entry_z : xreal) (zscore : list xreal) :
  exists (k : nat) (v : Z),
    (k <= length zscore)%nat
    /\ (v = 1 \/ v = -1)%Z
    /\ position_column entry_z exit_z_default zscore
       = Some (replicate k 0%Z ++ replicate (length zscore - k) v).
Proof.
  exact (column_enters_once entry_z exit_z_default zscore
           xreal_abs_not_negative).
Qed.
